(** * ModelParametersLWR: parameters of a Locally Weighted Regression model

    Shallow embedding of [src/functionapproximators/ModelParametersLWR.cpp]
    (DmpBbo).  Doubles are modelled by the real numbers of the Standard
    Library, so every statement below is a statement over exact real
    arithmetic: there is no rounding, no underflow and no NaN.  Sizes and
    indices ([int] in the source) are natural numbers.

    Dense matrices follow Eigen's [MatrixXd]: a number of rows, a number of
    columns and the coefficients in column-major order.  The [assert]s
    written in the source are modelled: a routine whose assertion fails
    returns [None].  Eigen's own checks of sizes and indices are not: the
    matrix operations are total (a read out of range gives 0, a write out
    of range does nothing, a binary operation takes the size of its left
    operand) and the statements carry the sizes as hypotheses.  Division
    is the total division of the Standard Library, so a quotient by a zero
    width has a value here where the real expression has none. *)

From Stdlib Require Import Reals Lra Lia List Bool String Arith.
From stdpp Require Import base list gmap strings.
Import ListNotations.

(** ** Eigen: the dense matrix primitive *)

Module Eigen.
Local Open Scope R_scope.

(** [VectorXd]: a column of doubles. *)
Abbreviation VectorXd := (list R).

(** [MatrixXd]: [rows] x [cols] doubles, stored column by column. *)
Record MatrixXd : Type := Matrix { rows : nat; cols : nat; data : list R }.

(** The storage holds exactly [rows * cols] coefficients. *)
Definition wf (m : MatrixXd) : Prop := length (data m) = (rows m * cols m)%nat.

(** A default-constructed matrix, also the result of [resize(0,0)]. *)
Definition Empty : MatrixXd := Matrix 0 0 [].

(** [m(i,j)] *)
Definition coeff (m : MatrixXd) (i j : nat) : R :=
  nth (i + j * rows m) (data m) 0.

(** [m(i,j) = v] *)
Definition set_coeff (m : MatrixXd) (i j : nat) (v : R) : MatrixXd :=
  Matrix (rows m) (cols m) (<[ (i + j * rows m)%nat := v ]> (data m)).

(** [m.resize(r,c)]: the coefficients are left uninitialised by Eigen; the
    model takes zeros. *)
Definition resize (r c : nat) : MatrixXd := Matrix r c (repeat 0 (r * c)).

(** Matrix given coefficient by coefficient. *)
Definition from_fun (r c : nat) (f : nat -> nat -> R) : MatrixXd :=
  Matrix r c (flat_map (fun j => map (fun i => f i j) (seq 0 r)) (seq 0 c)).

(** [v.segment(off,n)] read, and written with [seg]. *)
Definition segment (v : VectorXd) (off n : nat) : VectorXd :=
  firstn n (skipn off v).

Definition set_segment (v : VectorXd) (off : nat) (seg : VectorXd) : VectorXd :=
  firstn off v ++ seg ++ skipn (off + length seg) v.

(** [m.col(j)] read, written and filled. *)
Definition col (m : MatrixXd) (j : nat) : VectorXd :=
  segment (data m) (j * rows m) (rows m).

Definition set_col (m : MatrixXd) (j : nat) (v : VectorXd) : MatrixXd :=
  Matrix (rows m) (cols m) (set_segment (data m) (j * rows m) v).

Definition fill_col (m : MatrixXd) (j : nat) (x : R) : MatrixXd :=
  set_col m j (repeat x (rows m)).

(** [m.fill(x)] *)
Definition fill (m : MatrixXd) (x : R) : MatrixXd :=
  Matrix (rows m) (cols m) (repeat x (rows m * cols m)).

(** [m.row(i)] *)
Definition row (m : MatrixXd) (i : nat) : list R :=
  map (fun j => coeff m i j) (seq 0 (cols m)).

(** A vector seen as an [n x 1] matrix. *)
Definition of_vector (v : VectorXd) : MatrixXd := Matrix (length v) 1 v.

(** Sums and the product of a row by a transposed row. *)
Definition sum (l : list R) : R := fold_right Rplus 0 l.

Definition dot (a b : list R) : R := sum (zip_with Rmult a b).

(** Exact comparison of doubles, [x == y] and [x < y]. *)
Definition Reqb (x y : R) : bool := if Req_dec_T x y then true else false.
Definition Rltb (x y : R) : bool := if Rlt_dec x y then true else false.

(** [(a.array() == b.array()).all()] on two arrays of one size. *)
Definition array_eq_all (a b : list R) : bool :=
  forallb (fun p => Reqb (fst p) (snd p)) (combine a b).

(** [(a.array() == x).any()] *)
Definition array_eq_any (a : list R) (x : R) : bool :=
  existsb (fun y => Reqb y x) a.

(** [a.maxCoeff()] *)
Definition maxCoeff (a : list R) : R :=
  match a with
  | [] => 0
  | x :: l => fold_left Rmax l x
  end.

(** Eigen expressions: transpose, product, sum, difference, coefficient-wise
    product and quotient, [replicate] and [rowwise().sum()].  Eigen asserts
    that the operands' sizes agree; here the left operand gives the size. *)
Definition transpose (m : MatrixXd) : MatrixXd :=
  from_fun (cols m) (rows m) (fun i j => coeff m j i).

Definition mul (a b : MatrixXd) : MatrixXd :=
  from_fun (rows a) (cols b)
    (fun i j => sum (map (fun k => coeff a i k * coeff b k j) (seq 0 (cols a)))).

Definition add (a b : MatrixXd) : MatrixXd :=
  from_fun (rows a) (cols a) (fun i j => coeff a i j + coeff b i j).

Definition sub (a b : MatrixXd) : MatrixXd :=
  from_fun (rows a) (cols a) (fun i j => coeff a i j - coeff b i j).

Definition cwiseProduct (a b : MatrixXd) : MatrixXd :=
  from_fun (rows a) (cols a) (fun i j => coeff a i j * coeff b i j).

Definition cwiseQuotient (a b : MatrixXd) : MatrixXd :=
  from_fun (rows a) (cols a) (fun i j => coeff a i j / coeff b i j).

Definition replicate (m : MatrixXd) (r c : nat) : MatrixXd :=
  from_fun (rows m * r) (cols m * c)
    (fun i j => coeff m (i mod rows m) (j mod cols m)).

Definition rowwise_sum (m : MatrixXd) : MatrixXd :=
  from_fun (rows m) 1 (fun i _ => sum (row m i)).

(** Vectors: [a + b], [a - b] and [v[i] = x]. *)
Definition vadd (a b : VectorXd) : VectorXd := zip_with Rplus a b.
Definition vsub (a b : VectorXd) : VectorXd := zip_with Rminus a b.
Definition vset (v : VectorXd) (i : nat) (x : R) : VectorXd := <[ i := x ]> v.

End Eigen.
Import Eigen.

(** [atan2] of the C library, over the reals. *)
Definition atan2 (y x : R) : R :=
  if Rlt_dec 0 x then atan (y / x)
  else if Rlt_dec x 0 then
    (if Rlt_dec y 0 then atan (y / x) - PI else atan (y / x) + PI)
  else if Rlt_dec 0 y then PI / 2
  else if Rlt_dec y 0 then - PI / 2
  else 0.

(** [for (int i=0; i<n; i++) body], threading the variables the body
    updates. *)
Definition for_loop {S : Type} (n : nat) (body : nat -> S -> S) (s : S) : S :=
  fold_left (fun s i => body i s) (seq 0 n) s.

(** ** The static routines of [ModelParametersLWR] *)

Module Static.
Local Open Scope R_scope.

(** [kernelActivations(centers,widths,inputs,kernel_activations,asymmetric_kernels)]:
    [None] when one of the two [assert]s on the sizes fails. *)
Definition kernelActivations (centers widths inputs : MatrixXd)
    (asymmetric_kernels : bool) : option MatrixXd :=
  let n_basis_functions := rows centers in
  let n_samples := rows inputs in
  let n_dims := cols centers in
  if negb ((n_basis_functions =? rows widths)%nat && (n_dims =? cols widths)%nat)
  then None
  else if negb ((n_samples =? rows inputs)%nat && (n_dims =? cols inputs)%nat)
  then None
  else
    let kernel_activations := resize n_samples n_basis_functions in
    Some (for_loop n_basis_functions (fun bb kernel_activations =>
      let kernel_activations := fill_col kernel_activations bb 1 in
      for_loop n_dims (fun i_dim kernel_activations =>
        let c := coeff centers bb i_dim in
        for_loop n_samples (fun i_s kernel_activations =>
          let x := coeff inputs i_s i_dim in
          let w := coeff widths bb i_dim in
          let w :=
            if asymmetric_kernels && Rltb x c && (0 <? bb)%nat
            then coeff widths (bb - 1) i_dim
            else w in
          set_coeff kernel_activations i_s bb
            (coeff kernel_activations i_s bb * exp (-0.5 * (x - c) ^ 2 / (w * w))))
        kernel_activations)
      kernel_activations)
    kernel_activations).

(** The row sums after the guard against a division by zero:
    [if ((s.array()==0).any()) s.array() += s.maxCoeff()/100000.0]. *)
Definition guard_zero_sums (sum_kernel_activations : MatrixXd) : MatrixXd :=
  if array_eq_any (data sum_kernel_activations) 0
  then
    let eps := maxCoeff (data sum_kernel_activations) / 100000.0 in
    Matrix (rows sum_kernel_activations) (cols sum_kernel_activations)
      (map (fun s => s + eps) (data sum_kernel_activations))
  else sum_kernel_activations.

(** [normalizedKernelActivations(centers,widths,inputs,normalized_kernel_activations,asymmetric_kernels)] *)
Definition normalizedKernelActivations (centers widths inputs : MatrixXd)
    (asymmetric_kernels : bool) : option MatrixXd :=
  let n_basis_functions := rows centers in
  let n_samples := rows inputs in
  let normalized_kernel_activations := resize n_samples n_basis_functions in
  if (n_basis_functions =? 1)%nat
  then Some (fill normalized_kernel_activations 1)
  else
    match kernelActivations centers widths inputs asymmetric_kernels with
    | None => None
    | Some normalized_kernel_activations =>
        let sum_kernel_activations := rowwise_sum normalized_kernel_activations in
        let sum_kernel_activations := guard_zero_sums sum_kernel_activations in
        Some (cwiseQuotient normalized_kernel_activations
                (replicate sum_kernel_activations 1 n_basis_functions))
    end.

End Static.

(** ** The class [ModelParametersLWR] *)

(** The member variables.  The header that declares them is not part of the
    sources at hand: the fields are those the constructor initialises and
    the methods use; [offsets_] is a matrix of one column, as the
    constructor asserts; the two cache matrices are the [mutable] members
    the [const] method [normalizedKernelActivations] writes. *)
Record ModelParametersLWR : Type := Build {
  centers_ : MatrixXd;
  widths_ : MatrixXd;
  slopes_ : MatrixXd;
  offsets_ : MatrixXd;
  asymmetric_kernels_ : bool;
  lines_pivot_at_max_activation_ : bool;
  slopes_as_angles_ : bool;
  all_values_vector_size_ : nat;
  caching_ : bool;
  inputs_cached_ : MatrixXd;
  normalized_kernel_activations_cached_ : MatrixXd
}.

Definition set_centers_ (c : MatrixXd) (this : ModelParametersLWR) :=
  Build c (widths_ this) (slopes_ this) (offsets_ this)
    (asymmetric_kernels_ this) (lines_pivot_at_max_activation_ this)
    (slopes_as_angles_ this) (all_values_vector_size_ this) (caching_ this)
    (inputs_cached_ this) (normalized_kernel_activations_cached_ this).

Definition set_widths_ (w : MatrixXd) (this : ModelParametersLWR) :=
  Build (centers_ this) w (slopes_ this) (offsets_ this)
    (asymmetric_kernels_ this) (lines_pivot_at_max_activation_ this)
    (slopes_as_angles_ this) (all_values_vector_size_ this) (caching_ this)
    (inputs_cached_ this) (normalized_kernel_activations_cached_ this).

Definition set_slopes_ (s : MatrixXd) (this : ModelParametersLWR) :=
  Build (centers_ this) (widths_ this) s (offsets_ this)
    (asymmetric_kernels_ this) (lines_pivot_at_max_activation_ this)
    (slopes_as_angles_ this) (all_values_vector_size_ this) (caching_ this)
    (inputs_cached_ this) (normalized_kernel_activations_cached_ this).

Definition set_offsets_ (o : MatrixXd) (this : ModelParametersLWR) :=
  Build (centers_ this) (widths_ this) (slopes_ this) o
    (asymmetric_kernels_ this) (lines_pivot_at_max_activation_ this)
    (slopes_as_angles_ this) (all_values_vector_size_ this) (caching_ this)
    (inputs_cached_ this) (normalized_kernel_activations_cached_ this).

Definition set_lines_pivot_ (b : bool) (this : ModelParametersLWR) :=
  Build (centers_ this) (widths_ this) (slopes_ this) (offsets_ this)
    (asymmetric_kernels_ this) b
    (slopes_as_angles_ this) (all_values_vector_size_ this) (caching_ this)
    (inputs_cached_ this) (normalized_kernel_activations_cached_ this).

Definition set_slopes_as_angles_ (b : bool) (this : ModelParametersLWR) :=
  Build (centers_ this) (widths_ this) (slopes_ this) (offsets_ this)
    (asymmetric_kernels_ this) (lines_pivot_at_max_activation_ this)
    b (all_values_vector_size_ this) (caching_ this)
    (inputs_cached_ this) (normalized_kernel_activations_cached_ this).

Definition set_all_values_vector_size_ (n : nat) (this : ModelParametersLWR) :=
  Build (centers_ this) (widths_ this) (slopes_ this) (offsets_ this)
    (asymmetric_kernels_ this) (lines_pivot_at_max_activation_ this)
    (slopes_as_angles_ this) n (caching_ this)
    (inputs_cached_ this) (normalized_kernel_activations_cached_ this).

Definition set_cache_ (inputs nka : MatrixXd) (this : ModelParametersLWR) :=
  Build (centers_ this) (widths_ this) (slopes_ this) (offsets_ this)
    (asymmetric_kernels_ this) (lines_pivot_at_max_activation_ this)
    (slopes_as_angles_ this) (all_values_vector_size_ this) (caching_ this)
    inputs nka.

(** What a method does besides changing [*this]: a line written to
    [std::cerr] ([__FILE__], a colon, [__LINE__], then the text), and the
    calls that the specification asks to observe: [clearCache()] and the
    static [normalizedKernelActivations] with its inputs. *)
Inductive Event : Type :=
  | cerr (line : nat) (text : string)
  | call_clearCache
  | call_normalizedKernelActivations (inputs : MatrixXd).

(** A method: from [*this] to a result, the new [*this] and the events in
    order, or [None] when an [assert] fails. *)
Definition M (A : Type) : Type :=
  ModelParametersLWR -> option (A * ModelParametersLWR * list Event).

Definition ret {A : Type} (a : A) : M A := fun this => Some (a, this, []).

Definition bind {A B : Type} (m : M A) (k : A -> M B) : M B :=
  fun this =>
    match m this with
    | None => None
    | Some (a, this', tr) =>
        match k a this' with
        | None => None
        | Some (b, this'', tr') => Some (b, this'', tr ++ tr')
        end
    end.

Definition get : M ModelParametersLWR := fun this => Some (this, this, []).

Definition modify (f : ModelParametersLWR -> ModelParametersLWR) : M unit :=
  fun this => Some (tt, f this, []).

Definition emit (e : Event) : M unit := fun this => Some (tt, this, [e]).

Definition assert (b : bool) : M unit := fun this => if b then Some (tt, this, []) else None.

Definition lift {A : Type} (o : option A) : M A :=
  fun this => match o with Some a => Some (a, this, []) | None => None end.

Declare Scope method_scope.
Delimit Scope method_scope with method.
Notation "x <- c1 ;; c2" := (bind c1 (fun x => c2))
  (at level 100, c1 at next level, right associativity) : method_scope.
Notation "c1 ;;; c2" := (bind c1 (fun _ => c2))
  (at level 100, right associativity) : method_scope.

(** A [for] loop whose body is a sequence of method steps; [s] holds the
    local variables the body updates. *)
Fixpoint for_each {S : Type} (l : list nat) (body : nat -> S -> M S) (s : S) : M S :=
  match l with
  | [] => ret s
  | i :: l' => bind (body i s) (for_each l' body)
  end.

Definition for_loopM {S : Type} (n : nat) (body : nat -> S -> M S) (s : S) : M S :=
  for_each (seq 0 n) body s.

Section Methods.
Local Open Scope R_scope.
Local Open Scope method_scope.

(** The constructor: [None] when an [assert] on the sizes fails.  The cache
    members are default-constructed, that is empty. *)
Definition constructor (centers widths slopes offsets : MatrixXd)
    (asymmetric_kernels lines_pivot_at_max_activation : bool)
    : option ModelParametersLWR :=
  let this :=
    Build centers widths slopes offsets asymmetric_kernels
      lines_pivot_at_max_activation false 0 true Empty Empty in
  let n_basis_functions := rows centers in
  let n_dims := cols centers in
  if negb (n_basis_functions =? rows (widths_ this))%nat then None
  else if negb (n_dims =? cols (widths_ this))%nat then None
  else if negb (n_basis_functions =? rows (slopes_ this))%nat then None
  else if negb (n_dims =? cols (slopes_ this))%nat then None
  else if negb (n_basis_functions =? rows (offsets_ this))%nat then None
  else if negb (1 =? cols (offsets_ this))%nat then None
  else
    let s := 0%nat in
    let s := (s + rows (centers_ this) * cols (centers_ this))%nat in
    let s := (s + rows (widths_ this) * cols (widths_ this))%nat in
    let s := (s + rows (offsets_ this) * cols (offsets_ this))%nat in
    let s := (s + rows (slopes_ this) * cols (slopes_ this))%nat in
    Some (set_all_values_vector_size_ s this).

(** [clone()] *)
Definition clone (this : ModelParametersLWR) : option ModelParametersLWR :=
  constructor (centers_ this) (widths_ this) (slopes_ this) (offsets_ this)
    (asymmetric_kernels_ this) (lines_pivot_at_max_activation_ this).

(** Modelled from the spec: [getParameterVectorAllSize()] is declared in the
    header, which is not part of the sources at hand; it returns the size
    the constructor derives and stores in [all_values_vector_size_]. *)
Definition getParameterVectorAllSize (this : ModelParametersLWR) : nat :=
  all_values_vector_size_ this.

(** Modelled from the spec: [clearCache()] is declared in the header, which
    is not part of the sources at hand; it empties the cache entry, the
    cached inputs and the cached result, back to what the constructor
    leaves. *)
Definition clearCache : M unit :=
  emit call_clearCache ;;;
  modify (set_cache_ Empty Empty).

(** [kernelActivations(inputs,kernel_activations)] *)
Definition kernelActivations (this : ModelParametersLWR) (inputs : MatrixXd)
    : option MatrixXd :=
  Static.kernelActivations (centers_ this) (widths_ this) inputs
    (asymmetric_kernels_ this).

(** [normalizedKernelActivations(inputs,normalized_kernel_activations)],
    with the cache of the last call. *)
Definition normalizedKernelActivations (inputs : MatrixXd) : M MatrixXd :=
  this <- get ;;
  if caching_ this
     && ((rows inputs =? rows (inputs_cached_ this))%nat
         && (cols inputs =? cols (inputs_cached_ this))%nat)
     && array_eq_all (data inputs) (data (inputs_cached_ this))
  then ret (normalized_kernel_activations_cached_ this)
  else
    emit (call_normalizedKernelActivations inputs) ;;;
    normalized_kernel_activations <-
      lift (Static.normalizedKernelActivations (centers_ this) (widths_ this)
              inputs (asymmetric_kernels_ this)) ;;
    (if caching_ this
     then modify (set_cache_ inputs normalized_kernel_activations)
     else ret tt) ;;;
    ret normalized_kernel_activations.

(** The vector [ac] of [slopes_.row(i) * centers_.row(i).transpose()]. *)
Definition slopes_times_centers (this : ModelParametersLWR) : VectorXd :=
  let n_lines := rows (centers_ this) in
  for_loop n_lines
    (fun i_line ac =>
       vset ac i_line (dot (row (slopes_ this) i_line) (row (centers_ this) i_line)))
    (repeat 0 n_lines).

(** [set_lines_pivot_at_max_activation(lines_pivot_at_max_activation)] *)
Definition set_lines_pivot_at_max_activation (lines_pivot_at_max_activation : bool)
    : M unit :=
  this <- get ;;
  if Bool.eqb (lines_pivot_at_max_activation_ this) lines_pivot_at_max_activation
  then ret tt
  else
    let ac := slopes_times_centers this in
    (if lines_pivot_at_max_activation
     then modify (fun this => set_offsets_ (add (offsets_ this) (of_vector ac)) this)
     else modify (fun this => set_offsets_ (sub (offsets_ this) (of_vector ac)) this)) ;;;
    modify (set_lines_pivot_ lines_pivot_at_max_activation).

(** [set_slopes_as_angles(slopes_as_angles)] *)
Definition set_slopes_as_angles (slopes_as_angles : bool) : M unit :=
  modify (set_slopes_as_angles_ slopes_as_angles) ;;;
  emit (cerr 163 ":Not implemented yet!!!") ;;;
  modify (set_slopes_as_angles_ false).

(** [getLines(inputs,lines)] *)
Definition getLines (this : ModelParametersLWR) (inputs : MatrixXd) : MatrixXd :=
  let n_time_steps := rows inputs in
  let lines :=
    add (mul inputs (transpose (slopes_ this)))
        (replicate (transpose (offsets_ this)) n_time_steps 1) in
  if lines_pivot_at_max_activation_ this
  then
    let ac := slopes_times_centers this in
    sub lines (replicate (transpose (of_vector ac)) n_time_steps 1)
  else lines.

(** [locallyWeightedLines(inputs,output)] *)
Definition locallyWeightedLines (inputs : MatrixXd) : M MatrixXd :=
  this <- get ;;
  let lines := getLines this inputs in
  activations <- normalizedKernelActivations inputs ;;
  ret (rowwise_sum (cwiseProduct lines activations)).

(** [getParameterVectorAll(values)]: [None] when the final [assert] fails. *)
Definition getParameterVectorAll (this : ModelParametersLWR) : option VectorXd :=
  let values := repeat 0 (getParameterVectorAllSize this) in
  let offset := 0%nat in
  let '(values, offset) :=
    for_loop (cols (centers_ this))
      (fun i_dim '(values, offset) =>
         (set_segment values offset (col (centers_ this) i_dim),
          (offset + rows (centers_ this))%nat))
      (values, offset) in
  let '(values, offset) :=
    for_loop (cols (widths_ this))
      (fun i_dim '(values, offset) =>
         (set_segment values offset (col (widths_ this) i_dim),
          (offset + rows (widths_ this))%nat))
      (values, offset) in
  let values := set_segment values offset (data (offsets_ this)) in
  let offset := (offset + rows (offsets_ this))%nat in
  let '(values, offset) :=
    for_loop (cols (slopes_ this))
      (fun i_dim '(values, offset) =>
         let cur_slopes := col (slopes_ this) i_dim in
         let cur_slopes :=
           if slopes_as_angles_ this
           then for_loop (length cur_slopes)
                  (fun ii cur_slopes => vset cur_slopes ii (atan2 (nth ii cur_slopes 0) 1.0))
                  cur_slopes
           else cur_slopes in
         (set_segment values offset cur_slopes,
          (offset + rows (slopes_ this))%nat))
      (values, offset) in
  if (offset =? getParameterVectorAllSize this)%nat then Some values else None.

(** The bodies of the three loops of [setParameterVectorAll]: column
    [i_dim] of the centers, of the widths and of the slopes is read from
    [values.segment(offset,size)]; the result is the new [offset]. *)
Definition write_centers_col (values : VectorXd) (size i_dim offset : nat) : M nat :=
  this <- get ;;
  (if negb (array_eq_all (col (centers_ this) i_dim) (segment values offset size))
   then clearCache
   else ret tt) ;;;
  modify (fun this =>
    set_centers_ (set_col (centers_ this) i_dim (segment values offset size)) this) ;;;
  ret (offset + size)%nat.

Definition write_widths_col (values : VectorXd) (size i_dim offset : nat) : M nat :=
  this <- get ;;
  (if negb (array_eq_all (col (widths_ this) i_dim) (segment values offset size))
   then clearCache
   else ret tt) ;;;
  modify (fun this =>
    set_widths_ (set_col (widths_ this) i_dim (segment values offset size)) this) ;;;
  ret (offset + size)%nat.

Definition write_slopes_col (values : VectorXd) (size i_dim offset : nat) : M nat :=
  modify (fun this =>
    set_slopes_ (set_col (slopes_ this) i_dim (segment values offset size)) this) ;;;
  ret (offset + size)%nat.

(** [setParameterVectorAll(values)] *)
Definition setParameterVectorAll (values : VectorXd) : M unit :=
  this <- get ;;
  if negb (all_values_vector_size_ this =? length values)%nat
  then emit (cerr 446 ": values is of wrong size.")
  else
    let offset := 0%nat in
    let size := rows (centers_ this) in
    let n_dims := cols (centers_ this) in
    offset <- for_loopM n_dims (write_centers_col values size) offset ;;
    offset <- for_loopM n_dims (write_widths_col values size) offset ;;
    modify (set_offsets_ (of_vector (segment values offset size))) ;;;
    let offset := (offset + size)%nat in
    old_slopes <- (this <- get ;; ret (slopes_ this)) ;;
    offset <- for_loopM n_dims (write_slopes_col values size) offset ;;
    this <- get ;;
    assert (offset =? getParameterVectorAllSize this)%nat.

(** [setParameterVectorModifierPrivate(modifier,new_value)] *)
Definition setParameterVectorModifierPrivate (modifier : string) (new_value : bool)
    : M unit :=
  (if String.eqb modifier "lines_pivot_at_max_activation"
   then set_lines_pivot_at_max_activation new_value
   else ret tt) ;;;
  (if String.eqb modifier "slopes_as_angles"
   then set_slopes_as_angles new_value
   else ret tt).

End Methods.

(** ** Invariants and reference formulas *)

Section Reference.
Local Open Scope R_scope.

(** The sizes the constructor asserts, on matrices whose storage fits
    their size, and the derived size of the flat parameter vector. *)
Definition shapes_ok (this : ModelParametersLWR) : Prop :=
  wf (centers_ this) /\ wf (widths_ this) /\ wf (slopes_ this) /\ wf (offsets_ this)
  /\ rows (widths_ this) = rows (centers_ this)
  /\ cols (widths_ this) = cols (centers_ this)
  /\ rows (slopes_ this) = rows (centers_ this)
  /\ cols (slopes_ this) = cols (centers_ this)
  /\ rows (offsets_ this) = rows (centers_ this)
  /\ cols (offsets_ this) = 1%nat
  /\ all_values_vector_size_ this =
       (rows (centers_ this) * cols (centers_ this)
        + rows (widths_ this) * cols (widths_ this)
        + rows (offsets_ this) * cols (offsets_ this)
        + rows (slopes_ this) * cols (slopes_ this))%nat.

(** The class invariant: the sizes agree and the angle representation is
    off (the constructor clears the flag and [set_slopes_as_angles] forces
    it back to [false]). *)
Definition Inv (this : ModelParametersLWR) : Prop :=
  shapes_ok this /\ slopes_as_angles_ this = false.

(** The cache entry is empty, or it holds what the static routine computes
    from the current centers and widths on the cached inputs. *)
Definition cache_coherent (this : ModelParametersLWR) : Prop :=
  (inputs_cached_ this = Empty /\ normalized_kernel_activations_cached_ this = Empty)
  \/ Static.normalizedKernelActivations (centers_ this) (widths_ this)
       (inputs_cached_ this) (asymmetric_kernels_ this)
     = Some (normalized_kernel_activations_cached_ this).

(** The width the kernel of basis function [b] uses on dimension [d] for
    sample [s], in the words of the specification. *)
Definition effective_width (centers widths inputs : MatrixXd) (asymmetric : bool)
    (s b d : nat) : R :=
  if asymmetric && Rltb (coeff inputs s d) (coeff centers b d) && (0 <? b)%nat
  then coeff widths (b - 1) d
  else coeff widths b d.

(** The product over the dimensions of the one-dimensional Gaussians,
    starting from 1.0, in the words of the specification. *)
Definition gaussian_product (centers widths inputs : MatrixXd) (asymmetric : bool)
    (s b : nat) : R :=
  fold_left Rmult
    (map (fun d =>
            exp (-0.5 * (coeff inputs s d - coeff centers b d) ^ 2
                 / (effective_width centers widths inputs asymmetric s b d) ^ 2))
         (seq 0 (cols centers)))
    1.

(** The per-basis dot product [slopes(b,.) . centers(b,.)]. *)
Definition ac_of (this : ModelParametersLWR) (b : nat) : R :=
  sum (map (fun d => coeff (slopes_ this) b d * coeff (centers_ this) b d)
           (seq 0 (cols (centers_ this)))).

(** The flat concatenation of the specification: the columns of the
    centers, of the widths, the offsets, the columns of the slopes. *)
Definition flat_parameters (this : ModelParametersLWR) : VectorXd :=
  data (centers_ this) ++ data (widths_ this) ++ data (offsets_ this)
  ++ data (slopes_ this).

(** The centers block followed by the widths block of a flat vector. *)
Definition kernel_block (this : ModelParametersLWR) (values : VectorXd) : VectorXd :=
  firstn (2 * (rows (centers_ this) * cols (centers_ this))) values.

(** Whether the centers block or the widths block of [values] holds a
    value that differs from the current one. *)
Definition kernel_block_differs (this : ModelParametersLWR) (values : VectorXd) : bool :=
  negb (array_eq_all (data (centers_ this) ++ data (widths_ this))
          (kernel_block this values)).

(** The cache entry emptied when [c] holds, kept otherwise. *)
Definition clear_if (c : bool) (this : ModelParametersLWR) : ModelParametersLWR :=
  if c then set_cache_ Empty Empty this else this.

(** A trace made of calls to [clearCache()] only, at least one of them
    exactly when [c] holds. *)
Definition clears (c : bool) (tr : list Event) : Prop :=
  exists k, tr = repeat call_clearCache k /\ (c = true <-> (0 < k)%nat).

(** The scenario of the specification: one input dimension, two basis
    functions, centers 0 and 10, widths 2, offsets 0, slopes 1. *)
Definition scenario (asymmetric_kernels lines_pivot_at_max_activation : bool)
    : ModelParametersLWR :=
  Build (Matrix 2 1 [0; 10]) (Matrix 2 1 [2; 2]) (Matrix 2 1 [1; 1])
    (Matrix 2 1 [0; 0]) asymmetric_kernels lines_pivot_at_max_activation
    false 8 true Empty Empty.

(** The two inputs of the scenario, 0 and 5, as a batch of two samples. *)
Definition scenario_inputs : MatrixXd := Matrix 2 1 [0; 5].

(** A model with a single basis function on one dimension. *)
Definition single_basis : ModelParametersLWR :=
  Build (Matrix 1 1 [0]) (Matrix 1 1 [2]) (Matrix 1 1 [1]) (Matrix 1 1 [0])
    false false false 4 true Empty Empty.

(** A model with two basis functions and no input dimension, as the
    constructor accepts it. *)
Definition zero_dimensional : ModelParametersLWR :=
  Build (Matrix 2 0 []) (Matrix 2 0 []) (Matrix 2 0 []) (Matrix 2 1 [0; 0])
    false false false 2 true Empty Empty.

End Reference.

(** ** The mask of the flat vector and the grid export *)

Section MaskAndGrid.
Local Open Scope R_scope.
Local Open Scope method_scope.

(** [getSelectableParameters(selected_values_labels)]: the set is emptied
    and the four labels are inserted. *)
Definition getSelectableParameters : gset string :=
  {[ "slopes" ]} ∪ ({[ "offsets" ]} ∪ ({[ "widths" ]} ∪ ({[ "centers" ]} ∪ ∅))).

(** [mask.segment(offset,size).fill(x)] on a vector of integers. *)
Definition fill_segment (mask : list Z) (offset size : nat) (x : Z) : list Z :=
  firstn offset mask ++ repeat x size ++ skipn (offset + size) mask.

(** [getParameterVectorMask(selected_values_labels,selected_mask)]: [None]
    when the final [assert] fails. *)
Definition getParameterVectorMask (this : ModelParametersLWR)
    (selected_values_labels : gset string) : option (list Z) :=
  let selected_mask := repeat 0%Z (getParameterVectorAllSize this) in
  let offset := 0%nat in
  let size := (rows (centers_ this) * cols (centers_ this))%nat in
  let selected_mask :=
    if bool_decide ("centers" ∈ selected_values_labels)
    then fill_segment selected_mask offset size 1
    else selected_mask in
  let offset := (offset + size)%nat in
  let size := (rows (widths_ this) * cols (widths_ this))%nat in
  let selected_mask :=
    if bool_decide ("widths" ∈ selected_values_labels)
    then fill_segment selected_mask offset size 2
    else selected_mask in
  let offset := (offset + size)%nat in
  let size := (rows (offsets_ this) * cols (offsets_ this))%nat in
  let selected_mask :=
    if bool_decide ("offsets" ∈ selected_values_labels)
    then fill_segment selected_mask offset size 3
    else selected_mask in
  let offset := (offset + size)%nat in
  let size := (rows (slopes_ this) * cols (slopes_ this))%nat in
  let selected_mask :=
    if bool_decide ("slopes" ∈ selected_values_labels)
    then fill_segment selected_mask offset size 4
    else selected_mask in
  let offset := (offset + size)%nat in
  if (offset =? getParameterVectorAllSize this)%nat then Some selected_mask else None.

(** Eigen's [VectorXd::LinSpaced(size,low,high)], as its documentation
    defines it: [size] equally spaced values from [low] to [high], and the
    single value [high] when [size] is 1. *)
Definition LinSpaced (size : nat) (low high : R) : VectorXd :=
  if (size =? 1)%nat then [high]
  else map (fun i => low + INR i * ((high - low) / INR (size - 1))) (seq 0 size).

(** The grid of [saveGridData]: the inputs at which the model is evaluated,
    for one and for two dimensions; the matrix stays empty otherwise. *)
Definition grid_inputs (min max : VectorXd) (n_samples_per_dim : list nat) : MatrixXd :=
  let n_dims := length min in
  let inputs := Empty in
  if (n_dims =? 1)%nat
  then of_vector (LinSpaced (nth 0 n_samples_per_dim 0%nat) (nth 0 min 0) (nth 0 max 0))
  else if (n_dims =? 2)%nat
  then
    let n_samples := (nth 0 n_samples_per_dim 0 * nth 1 n_samples_per_dim 0)%nat in
    let inputs := Matrix n_samples n_dims (repeat 0 (n_samples * n_dims)) in
    let x1 := LinSpaced (nth 0 n_samples_per_dim 0%nat) (nth 0 min 0) (nth 0 max 0) in
    let x2 := LinSpaced (nth 1 n_samples_per_dim 0%nat) (nth 1 min 0) (nth 1 max 0) in
    for_loop (length x1) (fun ii inputs =>
      for_loop (length x2) (fun jj inputs =>
        let inputs := set_coeff inputs (ii * length x2 + jj) 0 (nth ii x1 0) in
        set_coeff inputs (ii * length x2 + jj) 1 (nth jj x2 0))
      inputs)
    inputs
  else inputs.

(** What [saveGridData] does besides changing the cache: the events of the
    methods it calls and its calls to [saveMatrix] of [EigenFileIO.hpp],
    with the directory, the file name, the matrix and the overwrite flag;
    the vector of integers [n_samples_per_dim] is saved as it is. *)
Inductive GridEvent : Type :=
  | method_event (e : Event)
  | call_saveMatrix (directory filename : string) (m : MatrixXd) (overwrite : bool)
  | call_saveMatrix_int (directory filename : string) (v : list nat) (overwrite : bool).

(** [saveGridData(min,max,n_samples_per_dim,save_directory,overwrite)]:
    [None] when an [assert] fails, here or in a method it calls. *)
Definition saveGridData (min max : VectorXd) (n_samples_per_dim : list nat)
    (save_directory : string) (overwrite : bool) (this : ModelParametersLWR)
    : option (bool * ModelParametersLWR * list GridEvent) :=
  if String.eqb save_directory ""
  then Some (true, this, [])
  else
    let n_dims := length min in
    if negb (n_dims =? length max)%nat then None
    else if negb (n_dims =? length n_samples_per_dim)%nat then None
    else
      let inputs := grid_inputs min max n_samples_per_dim in
      let lines := getLines this inputs in
      match locallyWeightedLines inputs this with
      | None => None
      | Some (weighted_lines, this, tr1) =>
          match kernelActivations this inputs with
          | None => None
          | Some activations =>
              match normalizedKernelActivations inputs this with
              | None => None
              | Some (normalized_activations, this, tr2) =>
                  Some (true, this,
                        map method_event (tr1 ++ tr2)
                        ++ [call_saveMatrix_int save_directory "n_samples_per_dim.txt"
                              n_samples_per_dim overwrite;
                            call_saveMatrix save_directory "inputs_grid.txt"
                              inputs overwrite;
                            call_saveMatrix save_directory "lines.txt"
                              lines overwrite;
                            call_saveMatrix save_directory "weighted_lines.txt"
                              weighted_lines overwrite;
                            call_saveMatrix save_directory "activations.txt"
                              activations overwrite;
                            call_saveMatrix save_directory "activations_normalized.txt"
                              normalized_activations overwrite])
              end
          end
      end.

End MaskAndGrid.

(** * Properties *)

(** ** Loops and lists *)

Lemma for_loop_S {S : Type} (n : nat) (body : nat -> S -> S) (s : S) :
  for_loop (Datatypes.S n) body s = body n (for_loop n body s).
Proof.
  unfold for_loop. rewrite seq_S, fold_left_app. reflexivity.
Qed.

Lemma for_loop_0 {S : Type} (body : nat -> S -> S) (s : S) :
  for_loop 0 body s = s.
Proof. reflexivity. Qed.

Lemma nth_set_segment (v seg : list R) (off k : nat) (d : R) :
  off + length seg <= length v ->
  nth k (set_segment v off seg) d =
    if (off <=? k) && (k <? off + length seg) then nth (k - off) seg d else nth k v d.
Proof.
  intros Hlen. unfold set_segment.
  assert (Hoff : length (firstn off v) = off) by (rewrite length_firstn; lia).
  destruct (Nat.leb_spec off k) as [Hle | Hlt]; simpl.
  - rewrite app_nth2 by lia. rewrite Hoff.
    destruct (Nat.ltb_spec k (off + length seg)) as [Hin | Hout].
    + rewrite app_nth1 by lia. reflexivity.
    + rewrite app_nth2 by lia. rewrite nth_skipn. f_equal. lia.
  - rewrite app_nth1 by lia. rewrite nth_firstn.
    destruct (Nat.ltb_spec k off); [reflexivity | lia].
Qed.

Lemma length_set_segment (v seg : list R) (off : nat) :
  off + length seg <= length v ->
  length (set_segment v off seg) = length v.
Proof.
  intros Hlen. unfold set_segment.
  rewrite !length_app, length_firstn, length_skipn. lia.
Qed.

Lemma length_segment (v : list R) (off n : nat) :
  off + n <= length v -> length (segment v off n) = n.
Proof.
  intros Hlen. unfold segment. rewrite length_firstn, length_skipn. lia.
Qed.

Lemma nth_segment (v : list R) (off n k : nat) (d : R) :
  k < n -> nth k (segment v off n) d = nth (off + k) v d.
Proof.
  intros Hk. unfold segment. rewrite nth_firstn, nth_skipn.
  destruct (Nat.ltb_spec k n); [reflexivity | lia].
Qed.

(** ** Coefficients of matrices *)

Lemma index_lt (r c i j : nat) : i < r -> j < c -> i + j * r < r * c.
Proof.
  intros Hi Hj.
  assert (Datatypes.S j * r <= c * r) by (apply Nat.mul_le_mono_r; lia).
  simpl in *. lia.
Qed.

Lemma index_inj (r i j i' j' : nat) :
  i < r -> i' < r -> i + j * r = i' + j' * r -> i = i' /\ j = j'.
Proof.
  intros Hi Hi' Heq.
  assert (j = j') as ->.
  { destruct (Nat.lt_trichotomy j j') as [Hlt | [-> | Hgt]]; [| reflexivity |].
    - assert (Datatypes.S j * r <= j' * r) by (apply Nat.mul_le_mono_r; lia).
      simpl in *. lia.
    - assert (Datatypes.S j' * r <= j * r) by (apply Nat.mul_le_mono_r; lia).
      simpl in *. lia. }
  split; [lia | reflexivity].
Qed.

Lemma coeff_set_coeff (m : MatrixXd) (i j : nat) (v : R) (i' j' : nat) :
  wf m -> i < rows m -> j < cols m -> i' < rows m ->
  coeff (set_coeff m i j v) i' j' =
    if (i' =? i) && (j' =? j) then v else coeff m i' j'.
Proof.
  intros Hwf Hi Hj Hi'. unfold coeff, set_coeff; simpl.
  rewrite !nth_lookup, list_lookup_insert.
  pose proof (index_lt _ _ _ _ Hi Hj) as Hlt. red in Hwf.
  destruct (Nat.eqb_spec i' i) as [-> | Hne]; simpl.
  - destruct (Nat.eqb_spec j' j) as [-> | Hne].
    + rewrite decide_True by (split; [reflexivity | lia]). reflexivity.
    + rewrite decide_False; [reflexivity |].
      intros [Heq _]. apply index_inj in Heq; [| assumption ..]. lia.
  - rewrite decide_False; [reflexivity |].
    intros [Heq _]. apply index_inj in Heq; [| assumption ..]. lia.
Qed.

Lemma wf_set_coeff (m : MatrixXd) (i j : nat) (v : R) :
  wf m -> wf (set_coeff m i j v).
Proof. unfold wf, set_coeff; simpl. rewrite length_insert. trivial. Qed.

Lemma nth_map_seq (f : nat -> R) (n i : nat) (d : R) :
  i < n -> nth i (map f (seq 0 n)) d = f i.
Proof.
  intros Hi.
  rewrite nth_indep with (d' := f 0%nat) by (rewrite length_map, length_seq; lia).
  rewrite map_nth, seq_nth by lia. reflexivity.
Qed.

Lemma length_flat_map_seq (g : nat -> nat -> R) (r c a : nat) :
  length (flat_map (fun j => map (fun i => g i j) (seq 0 r)) (seq a c)) = r * c.
Proof.
  revert a. induction c as [| c IH]; intros a; simpl.
  - lia.
  - rewrite length_app, length_map, length_seq, IH. lia.
Qed.

Lemma nth_flat_map_seq (g : nat -> nat -> R) (r c a i j : nat) :
  i < r -> j < c ->
  nth (i + j * r) (flat_map (fun j => map (fun i => g i j) (seq 0 r)) (seq a c)) 0%R
  = g i (a + j).
Proof.
  intros Hi. revert a j. induction c as [| c IH]; intros a j Hj; [lia |].
  simpl. destruct j as [| j].
  - rewrite app_nth1 by (rewrite length_map, length_seq; lia).
    rewrite (nth_map_seq (fun i => g i a)) by lia. f_equal; lia.
  - rewrite app_nth2 by (rewrite length_map, length_seq; lia).
    rewrite length_map, length_seq.
    replace (i + Datatypes.S j * r - r) with (i + j * r) by lia.
    rewrite IH by lia. f_equal. lia.
Qed.

Lemma wf_from_fun (r c : nat) (f : nat -> nat -> R) : wf (from_fun r c f).
Proof. unfold wf, from_fun; simpl. apply length_flat_map_seq. Qed.

Lemma coeff_from_fun (r c : nat) (f : nat -> nat -> R) (i j : nat) :
  i < r -> j < c -> coeff (from_fun r c f) i j = f i j.
Proof.
  intros Hi Hj. unfold coeff, from_fun; simpl.
  rewrite (nth_flat_map_seq f r c 0 i j Hi Hj). reflexivity.
Qed.

Lemma wf_resize (r c : nat) : wf (resize r c).
Proof. unfold wf, resize; simpl. apply repeat_length. Qed.

Lemma wf_fill_col (m : MatrixXd) (j : nat) (x : R) :
  wf m -> j < cols m -> wf (fill_col m j x).
Proof.
  unfold wf, fill_col, set_col; simpl. intros Hwf Hj.
  rewrite length_set_segment; [assumption |].
  rewrite repeat_length. nia.
Qed.

Lemma coeff_fill_col (m : MatrixXd) (j : nat) (x : R) (i' j' : nat) :
  wf m -> j < cols m -> i' < rows m ->
  coeff (fill_col m j x) i' j' = if (j' =? j) then x else coeff m i' j'.
Proof.
  unfold wf. intros Hwf Hj Hi'. unfold coeff, fill_col, set_col; simpl.
  rewrite nth_set_segment by (rewrite repeat_length; nia).
  rewrite repeat_length.
  destruct (Nat.eqb_spec j' j) as [-> | Hne].
  - replace (j * rows m <=? i' + j * rows m) with true
      by (symmetry; apply Nat.leb_le; lia).
    replace (i' + j * rows m <? j * rows m + rows m) with true
      by (symmetry; apply Nat.ltb_lt; lia).
    simpl. apply nth_repeat_lt. lia.
  - destruct (Nat.leb_spec (j * rows m) (i' + j' * rows m)) as [Hle | Hlt];
      [| reflexivity].
    destruct (Nat.ltb_spec (i' + j' * rows m) (j * rows m + rows m)) as [Hin | Hout];
      [| reflexivity].
    exfalso. apply Hne. nia.
Qed.

(** ** The loops of the static [kernelActivations] *)

Section KernelLoops.
Local Open Scope R_scope.

Lemma sample_loop (t : nat -> R) (bb ns : nat) (ka : MatrixXd) :
  wf ka -> (ns <= rows ka)%nat -> (bb < cols ka)%nat ->
  let ka' :=
    for_loop ns (fun i_s ka => set_coeff ka i_s bb (coeff ka i_s bb * t i_s)) ka in
  wf ka' /\ rows ka' = rows ka /\ cols ka' = cols ka /\
  forall s b, (s < rows ka)%nat ->
    coeff ka' s b =
      if (b =? bb)%nat && (s <? ns)%nat then coeff ka s b * t s else coeff ka s b.
Proof.
  intros Hwf Hns Hbb. induction ns as [| n IH]; cbv zeta.
  - rewrite for_loop_0. repeat split; try assumption.
    intros s b _. rewrite andb_false_r. reflexivity.
  - rewrite for_loop_S.
    destruct IH as (Hwf' & Hr & Hc & Hco); [lia |].
    set (ka' := for_loop n _ ka) in *.
    split; [apply wf_set_coeff; assumption |].
    split; [assumption |]. split; [assumption |].
    intros s b Hs.
    rewrite coeff_set_coeff by (try assumption; lia).
    rewrite !Hco by lia. rewrite Nat.eqb_refl, Nat.ltb_irrefl. simpl.
    destruct (Nat.eqb_spec s n) as [-> | Hne]; simpl.
    + destruct (Nat.eqb_spec b bb) as [-> | Hnb]; simpl.
      * replace (n <? Datatypes.S n)%nat with true
          by (symmetry; apply Nat.ltb_lt; lia). reflexivity.
      * reflexivity.
    + destruct (Nat.eqb_spec b bb) as [-> | Hnb]; simpl; [| reflexivity].
      destruct (Nat.ltb_spec s n), (Nat.ltb_spec s (Datatypes.S n));
        try reflexivity; lia.
Qed.

Lemma dim_loop (t : nat -> nat -> R) (bb nd ns : nat) (ka : MatrixXd) :
  wf ka -> (ns <= rows ka)%nat -> (bb < cols ka)%nat ->
  let ka' :=
    for_loop nd (fun i_dim ka =>
      for_loop ns (fun i_s ka => set_coeff ka i_s bb (coeff ka i_s bb * t i_dim i_s)) ka)
    ka in
  wf ka' /\ rows ka' = rows ka /\ cols ka' = cols ka /\
  forall s b, (s < rows ka)%nat ->
    coeff ka' s b =
      if (b =? bb)%nat && (s <? ns)%nat
      then fold_left Rmult (map (fun d => t d s) (seq 0 nd)) (coeff ka s b)
      else coeff ka s b.
Proof.
  intros Hwf Hns Hbb. induction nd as [| n IH]; cbv zeta.
  - rewrite for_loop_0. repeat split; try assumption.
    intros s b _. simpl. destruct (_ && _); reflexivity.
  - rewrite for_loop_S.
    destruct IH as (Hwf' & Hr & Hc & Hco).
    set (ka' := for_loop n _ ka) in *.
    destruct (sample_loop (t n) bb ns ka') as (Hwf2 & Hr2 & Hc2 & Hco2);
      [assumption | lia | lia |].
    split; [assumption |]. split; [congruence |]. split; [congruence |].
    intros s b Hs. rewrite Hco2 by lia. rewrite Hco by lia.
    destruct ((b =? bb)%nat && (s <? ns)%nat); [| reflexivity].
    rewrite seq_S, map_app, fold_left_app. reflexivity.
Qed.

Lemma basis_loop (t : nat -> nat -> nat -> R) (nb nd ns : nat) (ka : MatrixXd) :
  wf ka -> (ns <= rows ka)%nat -> (nb <= cols ka)%nat ->
  let ka' :=
    for_loop nb (fun bb ka =>
      let ka := fill_col ka bb 1 in
      for_loop nd (fun i_dim ka =>
        for_loop ns (fun i_s ka =>
          set_coeff ka i_s bb (coeff ka i_s bb * t bb i_dim i_s)) ka) ka)
    ka in
  wf ka' /\ rows ka' = rows ka /\ cols ka' = cols ka /\
  forall s b, (s < ns)%nat -> (b < nb)%nat ->
    coeff ka' s b = fold_left Rmult (map (fun d => t b d s) (seq 0 nd)) 1.
Proof.
  intros Hwf Hns Hnb. induction nb as [| n IH]; cbv zeta.
  - rewrite for_loop_0. repeat split; try assumption. intros; lia.
  - rewrite for_loop_S.
    destruct IH as (Hwf' & Hr & Hc & Hco); [lia |].
    set (ka' := for_loop n _ ka) in *.
    assert (Hwf1 : wf (fill_col ka' n 1)) by (apply wf_fill_col; [assumption | lia]).
    destruct (dim_loop (t n) n nd ns (fill_col ka' n 1)) as (Hwf2 & Hr2 & Hc2 & Hco2);
      [assumption | simpl; lia | simpl; lia |].
    cbv zeta in Hco2.
    split; [assumption |].
    split; [rewrite Hr2; simpl; assumption |].
    split; [rewrite Hc2; simpl; assumption |].
    intros s b Hs Hb. rewrite Hco2 by (simpl; lia).
    rewrite coeff_fill_col by (try assumption; lia).
    destruct (Nat.eqb_spec b n) as [-> | Hne]; simpl.
    + replace (s <? ns)%nat with true by (symmetry; apply Nat.ltb_lt; lia).
      reflexivity.
    + apply Hco; lia.
Qed.

(** The static [kernelActivations] passes its assertions exactly when the
    sizes agree, and then every coefficient is the product of Gaussians. *)
Lemma kernelActivations_closed_form (centers widths inputs : MatrixXd) (asym : bool) :
  rows widths = rows centers -> cols widths = cols centers ->
  cols inputs = cols centers ->
  exists ka,
    Static.kernelActivations centers widths inputs asym = Some ka
    /\ wf ka /\ rows ka = rows inputs /\ cols ka = rows centers
    /\ forall s b, (s < rows inputs)%nat -> (b < rows centers)%nat ->
         coeff ka s b = gaussian_product centers widths inputs asym s b.
Proof.
  intros Hrw Hcw Hci. unfold Static.kernelActivations. cbv zeta.
  rewrite Hrw, Hcw, Hci, !Nat.eqb_refl. simpl negb. cbv iota.
  eexists. split; [reflexivity |].
  pose proof (basis_loop
    (fun bb i_dim i_s =>
       exp (-0.5 * (coeff inputs i_s i_dim - coeff centers bb i_dim) ^ 2
            / ((if asym && Rltb (coeff inputs i_s i_dim) (coeff centers bb i_dim)
                   && (0 <? bb)%nat
                then coeff widths (bb - 1) i_dim else coeff widths bb i_dim)
               * (if asym && Rltb (coeff inputs i_s i_dim) (coeff centers bb i_dim)
                     && (0 <? bb)%nat
                  then coeff widths (bb - 1) i_dim else coeff widths bb i_dim))))
    (rows centers) (cols centers) (rows inputs)
    (resize (rows inputs) (rows centers)) (wf_resize _ _)) as H.
  cbv zeta in H. destruct H as (Hwf & Hr & Hc & Hco); [simpl; lia | simpl; lia |].
  split; [exact Hwf |]. split; [exact Hr |]. split; [exact Hc |].
  intros s b Hs Hb. rewrite (Hco s b Hs Hb). unfold gaussian_product.
  f_equal. apply map_ext. intros d. unfold effective_width.
  f_equal. f_equal. simpl. ring.
Qed.

End KernelLoops.

(** ** Normalisation *)

Section Normalisation.
Local Open Scope R_scope.

Lemma fold_left_Rmult_pos (l : list R) (a : R) :
  0 < a -> (forall x, In x l -> 0 < x) -> 0 < fold_left Rmult l a.
Proof.
  revert a. induction l as [| x l IH]; intros a Ha Hl; simpl; [assumption |].
  apply IH.
  - apply Rmult_lt_0_compat; [assumption | apply Hl; left; reflexivity].
  - intros y Hy. apply Hl. right. assumption.
Qed.

Lemma gaussian_product_pos (centers widths inputs : MatrixXd) (asym : bool) (s b : nat) :
  0 < gaussian_product centers widths inputs asym s b.
Proof.
  unfold gaussian_product. apply fold_left_Rmult_pos; [lra |].
  intros x Hx. apply in_map_iff in Hx. destruct Hx as (d & <- & _). apply exp_pos.
Qed.

Lemma sum_pos (l : list R) :
  l <> [] -> (forall x, In x l -> 0 < x) -> 0 < sum l.
Proof.
  destruct l as [| x l]; [congruence |]. intros _ Hl. simpl.
  assert (Hnn : forall k : list R, (forall y, In y k -> 0 < y) -> 0 <= sum k).
  { induction k as [| y k IH]; intros Hk; simpl; [lra |].
    assert (0 < y) by (apply Hk; left; reflexivity).
    assert (0 <= sum k) by (apply IH; intros z Hz; apply Hk; right; assumption).
    lra. }
  assert (0 < x) by (apply Hl; left; reflexivity).
  assert (0 <= sum l) by (apply Hnn; intros z Hz; apply Hl; right; assumption).
  lra.
Qed.

Lemma sum_map_div (f : nat -> R) (c : R) (l : list nat) :
  sum (map (fun b => f b / c) l) = sum (map f l) / c.
Proof.
  induction l as [| x l IH]; simpl.
  - unfold Rdiv. ring.
  - rewrite IH. unfold Rdiv. ring.
Qed.

Lemma row_sum_pos (m : MatrixXd) (s : nat) :
  (0 < cols m)%nat -> (forall b, (b < cols m)%nat -> 0 < coeff m s b) ->
  0 < sum (row m s).
Proof.
  intros Hc Hpos. apply sum_pos.
  - unfold row. destruct (cols m); [lia | discriminate].
  - intros x Hx. unfold row in Hx. apply in_map_iff in Hx.
    destruct Hx as (b & <- & Hb). apply in_seq in Hb. apply Hpos. lia.
Qed.

Lemma data_rowwise_sum (m : MatrixXd) :
  data (rowwise_sum m) = map (fun i => sum (row m i)) (seq 0 (rows m)).
Proof. unfold rowwise_sum, from_fun; simpl. apply app_nil_r. Qed.

Lemma coeff_rowwise_sum (m : MatrixXd) (s : nat) :
  (s < rows m)%nat -> coeff (rowwise_sum m) s 0 = sum (row m s).
Proof.
  intros Hs. unfold rowwise_sum. rewrite coeff_from_fun by lia. reflexivity.
Qed.

Lemma array_eq_any_false (l : list R) (x : R) :
  (forall y, In y l -> y <> x) -> array_eq_any l x = false.
Proof.
  intros Hl. unfold array_eq_any.
  destruct (existsb (fun y => Reqb y x) l) eqn:E; [| reflexivity].
  apply existsb_exists in E. destruct E as (y & Hy & Heq).
  unfold Reqb in Heq. destruct (Req_dec_T y x) as [-> | _]; [| discriminate].
  exfalso. exact (Hl x Hy eq_refl).
Qed.

Lemma coeff_replicate_column (v : MatrixXd) (n s b : nat) :
  cols v = 1%nat -> (s < rows v)%nat -> (b < n)%nat ->
  coeff (replicate v 1 n) s b = coeff v s 0.
Proof.
  intros Hc Hs Hb. unfold replicate.
  rewrite coeff_from_fun by (rewrite ?Hc; lia).
  rewrite Hc, Nat.mod_small by lia.
  rewrite Nat.mod_1_r. reflexivity.
Qed.

(** With more than one basis function and sizes that agree, the static
    routine divides each raw activation by the sum of its row, which is
    positive, and never takes the branch that guards a zero sum. *)
Lemma normalized_closed_form (centers widths inputs : MatrixXd) (asym : bool) :
  rows widths = rows centers -> cols widths = cols centers ->
  cols inputs = cols centers -> (1 < rows centers)%nat ->
  exists ka,
    Static.kernelActivations centers widths inputs asym = Some ka
    /\ rows ka = rows inputs /\ cols ka = rows centers
    /\ (forall s b, (s < rows inputs)%nat -> (b < rows centers)%nat ->
          coeff ka s b = gaussian_product centers widths inputs asym s b)
    /\ (forall s, (s < rows inputs)%nat -> 0 < sum (row ka s))
    /\ array_eq_any (data (rowwise_sum ka)) 0 = false
    /\ Static.normalizedKernelActivations centers widths inputs asym
       = Some (cwiseQuotient ka (replicate (rowwise_sum ka) 1 (rows centers)))
    /\ (forall s b, (s < rows inputs)%nat -> (b < rows centers)%nat ->
          coeff (cwiseQuotient ka (replicate (rowwise_sum ka) 1 (rows centers))) s b
          = coeff ka s b / sum (row ka s)).
Proof.
  intros Hrw Hcw Hci Hnb.
  destruct (kernelActivations_closed_form centers widths inputs asym Hrw Hcw Hci)
    as (ka & Hka & Hwf & Hr & Hc & Hco).
  exists ka. split; [assumption |]. split; [assumption |]. split; [assumption |].
  split; [assumption |].
  assert (Hsum : forall s, (s < rows inputs)%nat -> 0 < sum (row ka s)).
  { intros s Hs. apply row_sum_pos; [lia |].
    intros b Hb. rewrite Hco by lia. apply gaussian_product_pos. }
  assert (Hany : array_eq_any (data (rowwise_sum ka)) 0 = false).
  { apply array_eq_any_false. intros y Hy. rewrite data_rowwise_sum in Hy.
    apply in_map_iff in Hy. destruct Hy as (s & <- & Hs). apply in_seq in Hs.
    assert (0 < sum (row ka s)) by (apply Hsum; lia). lra. }
  split; [assumption |]. split; [assumption |]. split.
  - unfold Static.normalizedKernelActivations. cbv zeta.
    replace (rows centers =? 1)%nat with false
      by (symmetry; apply Nat.eqb_neq; lia).
    rewrite Hka. unfold Static.guard_zero_sums. rewrite Hany. reflexivity.
  - intros s b Hs Hb. unfold cwiseQuotient.
    rewrite coeff_from_fun by lia.
    rewrite coeff_replicate_column by (simpl; lia).
    rewrite coeff_rowwise_sum by lia. reflexivity.
Qed.

End Normalisation.

(** ** Kernel activations and their normalisation: the claims *)

Section KernelClaims.
Local Open Scope R_scope.

(** C7.  When the sizes agree, the static [kernelActivations] returns a
    matrix of one row per sample and one column per basis function whose
    coefficient [(s,b)] is the product over the dimensions [d], starting
    from 1.0, of [exp(-0.5*(x(s,d)-c(b,d))^2 / w(b,d)^2)], where [w(b,d)] is
    [widths(b-1,d)] when the kernels are asymmetric, [x(s,d) < c(b,d)] and
    [b > 0], and [widths(b,d)] otherwise; basis function 0 always uses its
    own width. *)
Theorem kernelActivations_gaussian_product
    (centers widths inputs : MatrixXd) (asymmetric_kernels : bool) :
  rows widths = rows centers -> cols widths = cols centers ->
  cols inputs = cols centers ->
  exists kernel_activations,
    Static.kernelActivations centers widths inputs asymmetric_kernels
      = Some kernel_activations
    /\ rows kernel_activations = rows inputs
    /\ cols kernel_activations = rows centers
    /\ (forall s b, (s < rows inputs)%nat -> (b < rows centers)%nat ->
          coeff kernel_activations s b
          = gaussian_product centers widths inputs asymmetric_kernels s b)
    /\ (forall s b d,
          asymmetric_kernels = true -> coeff inputs s d < coeff centers b d ->
          (0 < b)%nat ->
          effective_width centers widths inputs asymmetric_kernels s b d
          = coeff widths (b - 1) d)
    /\ (forall s b d,
          ~ (asymmetric_kernels = true /\ coeff inputs s d < coeff centers b d
             /\ (0 < b)%nat) ->
          effective_width centers widths inputs asymmetric_kernels s b d
          = coeff widths b d)
    /\ (forall s d,
          effective_width centers widths inputs asymmetric_kernels s 0 d
          = coeff widths 0 d).
Proof.
  intros Hrw Hcw Hci.
  destruct (kernelActivations_closed_form centers widths inputs asymmetric_kernels
              Hrw Hcw Hci) as (ka & Hka & _ & Hr & Hc & Hco).
  exists ka. repeat (split; [assumption |]).
  unfold effective_width, Rltb. split; [| split].
  - intros s b d -> Hlt Hb.
    destruct (Rlt_dec _ _) as [_ | Hn]; [| contradiction].
    replace (0 <? b)%nat with true by (symmetry; apply Nat.ltb_lt; lia).
    reflexivity.
  - intros s b d Hnot.
    destruct asymmetric_kernels; [| reflexivity].
    destruct (Rlt_dec _ _) as [Hlt | _]; [| reflexivity].
    destruct (Nat.ltb_spec 0 b) as [Hb | _]; [| reflexivity].
    exfalso. apply Hnot. auto.
  - intros s d. rewrite andb_false_r. reflexivity.
Qed.

Lemma kernelActivations_gaussian_product_witness :
  exists kernel_activations,
    Static.kernelActivations (centers_ (scenario true false))
      (widths_ (scenario true false)) scenario_inputs true
      = Some kernel_activations
    /\ coeff kernel_activations 1 1
       = gaussian_product (centers_ (scenario true false))
           (widths_ (scenario true false)) scenario_inputs true 1 1.
Proof.
  destruct (kernelActivations_gaussian_product (centers_ (scenario true false))
              (widths_ (scenario true false)) scenario_inputs true
              eq_refl eq_refl eq_refl) as (ka & Hka & _ & _ & Hco & _).
  exists ka. split; [exact Hka |]. apply Hco; simpl; lia.
Defined.



(** C10.  With more than one basis function and sizes that agree, every raw
    activation is positive, so every row sum is positive, no row sum equals
    zero, the branch that adds [maxCoeff()/100000] is not taken, and every
    divisor of the final coefficient-wise division is non-zero. *)
Theorem normalizedKernelActivations_no_zero_sum
    (centers widths inputs : MatrixXd) (asymmetric_kernels : bool) :
  (1 < rows centers)%nat ->
  rows widths = rows centers -> cols widths = cols centers ->
  cols inputs = cols centers ->
  exists kernel_activations,
    Static.kernelActivations centers widths inputs asymmetric_kernels
      = Some kernel_activations
    /\ (forall s b, (s < rows inputs)%nat -> (b < rows centers)%nat ->
          0 < coeff kernel_activations s b)
    /\ (forall s, (s < rows inputs)%nat ->
          0 < coeff (rowwise_sum kernel_activations) s 0)
    /\ array_eq_any (data (rowwise_sum kernel_activations)) 0 = false
    /\ Static.guard_zero_sums (rowwise_sum kernel_activations)
       = rowwise_sum kernel_activations
    /\ Static.normalizedKernelActivations centers widths inputs asymmetric_kernels
       = Some (cwiseQuotient kernel_activations
                 (replicate (Static.guard_zero_sums (rowwise_sum kernel_activations))
                    1 (rows centers)))
    /\ (forall s b, (s < rows inputs)%nat -> (b < rows centers)%nat ->
          coeff (replicate (Static.guard_zero_sums (rowwise_sum kernel_activations))
                   1 (rows centers)) s b <> 0).
Proof.
  intros Hnb Hrw Hcw Hci.
  destruct (normalized_closed_form centers widths inputs asymmetric_kernels
              Hrw Hcw Hci Hnb)
    as (ka & Hka & Hr & Hc & Hco & Hsum & Hany & Hn & _).
  assert (Hg : Static.guard_zero_sums (rowwise_sum ka) = rowwise_sum ka)
    by (unfold Static.guard_zero_sums; rewrite Hany; reflexivity).
  exists ka. split; [assumption |]. split.
  { intros s b Hs Hb. rewrite Hco by lia. apply gaussian_product_pos. }
  split.
  { intros s Hs. rewrite coeff_rowwise_sum by lia. apply Hsum. assumption. }
  split; [assumption |]. split; [assumption |]. rewrite Hg.
  split; [assumption |].
  intros s b Hs Hb. rewrite coeff_replicate_column by (simpl; lia).
  rewrite coeff_rowwise_sum by lia. specialize (Hsum s Hs). lra.
Qed.

Lemma normalizedKernelActivations_no_zero_sum_witness :
  exists kernel_activations,
    Static.kernelActivations (centers_ (scenario false false))
      (widths_ (scenario false false)) scenario_inputs false
      = Some kernel_activations
    /\ array_eq_any (data (rowwise_sum kernel_activations)) 0 = false.
Proof.
  destruct (normalizedKernelActivations_no_zero_sum
              (centers_ (scenario false false)) (widths_ (scenario false false))
              scenario_inputs false ltac:(simpl; lia) eq_refl eq_refl eq_refl)
    as (ka & Hka & _ & _ & Hany & _).
  exists ka. split; assumption.
Defined.

End KernelClaims.

(** ** The flat parameter vector *)

Section Codec.
Local Open Scope nat_scope.

Lemma array_eq_all_refl (l : list R) : array_eq_all l l = true.
Proof.
  unfold array_eq_all. induction l as [| x l IH]; simpl; [reflexivity |].
  rewrite IH. unfold Reqb. destruct (Req_dec_T x x); [reflexivity | congruence].
Qed.

Lemma array_eq_all_true_iff (a b : list R) :
  length a = length b -> (array_eq_all a b = true <-> a = b).
Proof.
  intros Hlen. split; [| intros ->; apply array_eq_all_refl].
  revert b Hlen. unfold array_eq_all.
  induction a as [| x a IH]; intros [| y b] Hlen; simpl in *; try discriminate.
  - reflexivity.
  - intros H. apply andb_prop in H. destruct H as [Hxy Hab].
    unfold Reqb in Hxy. destruct (Req_dec_T x y) as [-> | _]; [| discriminate].
    f_equal. apply IH; [lia | assumption].
Qed.

Lemma array_eq_all_app (a a' b b' : list R) :
  length a = length a' ->
  array_eq_all (a ++ b) (a' ++ b') = array_eq_all a a' && array_eq_all b b'.
Proof.
  unfold array_eq_all. revert a'.
  induction a as [| x a IH]; intros [| y a'] Hlen; simpl in *; try discriminate.
  - reflexivity.
  - rewrite IH by lia. rewrite andb_assoc. reflexivity.
Qed.

Lemma set_segment_app (A B seg : list R) :
  length seg <= length B ->
  set_segment (A ++ B) (length A) seg = A ++ seg ++ skipn (length seg) B.
Proof.
  intros Hlen. unfold set_segment.
  rewrite firstn_app, firstn_all, Nat.sub_diag. simpl. rewrite app_nil_r.
  rewrite skipn_app. rewrite (skipn_all2 (n := length A + length seg) A) by lia. simpl.
  replace (length A + length seg - length A) with (length seg) by lia.
  replace (length A + length seg - length A) with (length seg) by lia.
  reflexivity.
Qed.

Lemma firstn_segment_step (l : list R) (i n : nat) :
  firstn (i * n) l ++ segment l (i * n) n = firstn (i * n + n) l.
Proof. unfold segment. apply take_take_drop. Qed.

Lemma mul_succ_le (i d n : nat) : i < d -> i * n + n <= n * d.
Proof.
  intros Hi. assert (Datatypes.S i * n <= d * n) by (apply Nat.mul_le_mono_r; lia).
  simpl in *. lia.
Qed.

Lemma length_col (m : MatrixXd) (j : nat) :
  wf m -> j < cols m -> length (col m j) = rows m.
Proof.
  unfold wf, col. intros Hwf Hj. apply length_segment.
  rewrite Hwf. apply mul_succ_le. assumption.
Qed.

(** The loops of [getParameterVectorAll] copy the storage of a matrix into
    the flat vector, column after column. *)
Lemma copy_cols_loop (m : MatrixXd) (A B : list R) (i : nat) :
  wf m -> i <= cols m -> rows m * cols m <= length B ->
  for_loop i
    (fun i_dim '(values, offset) =>
       (set_segment values offset (col m i_dim), offset + rows m))
    (A ++ B, length A)
  = (A ++ firstn (i * rows m) (data m) ++ skipn (i * rows m) B,
     length A + i * rows m).
Proof.
  intros Hwf Hi HB. induction i as [| i IH].
  - rewrite for_loop_0. simpl. rewrite Nat.add_0_r. reflexivity.
  - rewrite for_loop_S, IH by lia.
    pose proof (mul_succ_le i (cols m) (rows m) ltac:(lia)) as Hle.
    red in Hwf.
    assert (Hl : length (A ++ firstn (i * rows m) (data m)) = length A + i * rows m)
      by (rewrite length_app, length_firstn; lia).
    rewrite app_assoc, <- Hl.
    rewrite set_segment_app
      by (rewrite length_col by (assumption || lia); rewrite length_skipn; lia).
    rewrite length_col by (assumption || lia).
    f_equal; [| rewrite Hl; simpl; lia].
    rewrite <- !app_assoc. f_equal. rewrite app_assoc. f_equal.
    + unfold col. rewrite firstn_segment_step. f_equal. simpl. lia.
    + rewrite skipn_skipn. f_equal; simpl; lia.
Qed.

Lemma copy_cols (m : MatrixXd) (A B : list R) :
  wf m -> rows m * cols m <= length B ->
  for_loop (cols m)
    (fun i_dim '(values, offset) =>
       (set_segment values offset (col m i_dim), offset + rows m))
    (A ++ B, length A)
  = (A ++ data m ++ skipn (rows m * cols m) B, length A + rows m * cols m).
Proof.
  intros Hwf HB. rewrite copy_cols_loop by (assumption || lia).
  rewrite (Nat.mul_comm (cols m)). red in Hwf.
  rewrite <- Hwf at 1. rewrite firstn_all. reflexivity.
Qed.

(** On a model that satisfies the class invariant [getParameterVectorAll]
    passes its assertion and returns the flat concatenation. *)
Lemma getParameterVectorAll_flat (this : ModelParametersLWR) :
  Inv this -> getParameterVectorAll this = Some (flat_parameters this).
Proof.
  intros [(Hc & Hw & Hs & Ho & Hrw & Hcw & Hrs & Hcs & Hro & Hco & Hsize) Hang].
  unfold getParameterVectorAll, getParameterVectorAllSize.
  rewrite Hang. cbv zeta iota. rewrite Hsize.
  set (size := rows (centers_ this) * cols (centers_ this)
               + rows (widths_ this) * cols (widths_ this)
               + rows (offsets_ this) * cols (offsets_ this)
               + rows (slopes_ this) * cols (slopes_ this)).
  red in Hc, Hw, Hs, Ho.
  (* centers *)
  pose proof (copy_cols (centers_ this) [] (repeat 0%R size)) as E1.
  change ([] ++ ?B) with B in E1. change (length (@nil R)) with 0 in E1.
  rewrite E1 by (assumption || (rewrite repeat_length; subst size; lia)).
  clear E1. cbv beta iota.
  (* widths *)
  replace (0 + rows (centers_ this) * cols (centers_ this))
    with (length (data (centers_ this))) by (rewrite Hc; reflexivity).
  rewrite copy_cols
    by (assumption || (rewrite length_skipn, repeat_length; subst size; lia)).
  cbv beta iota.
  (* offsets *)
  rewrite app_assoc.
  replace (length (data (centers_ this)) + rows (widths_ this) * cols (widths_ this))
    with (length (data (centers_ this) ++ data (widths_ this)))
    by (rewrite length_app, Hw; reflexivity).
  rewrite set_segment_app
    by (rewrite !length_skipn, repeat_length, Ho; subst size; lia).
  (* slopes *)
  rewrite app_assoc.
  replace (length (data (centers_ this) ++ data (widths_ this)) + rows (offsets_ this))
    with (length ((data (centers_ this) ++ data (widths_ this)) ++ data (offsets_ this)))
    by (rewrite (length_app _ (data (offsets_ this))), Ho, Hco; lia).
  rewrite copy_cols
    by (assumption || (rewrite !length_skipn, repeat_length, Ho; subst size; lia)).
  cbv beta iota.
  rewrite !length_app, Hc, Hw, Ho.
  replace (_ =? size) with true by (symmetry; apply Nat.eqb_eq; subst size; lia).
  f_equal. unfold flat_parameters.
  rewrite (skipn_all2 (n := rows (slopes_ this) * cols (slopes_ this)))
    by (rewrite !length_skipn, repeat_length, ?Ho; subst size; lia).
  rewrite app_nil_r, <- !app_assoc. reflexivity.
Qed.

Lemma for_each_app {S : Type} (l1 l2 : list nat) (body : nat -> S -> M S) (s : S)
    (this : ModelParametersLWR) :
  for_each (l1 ++ l2) body s this = bind (for_each l1 body s) (for_each l2 body) this.
Proof.
  revert s this. induction l1 as [| i l1 IH]; intros s this; simpl.
  - unfold bind, ret. destruct (for_each l2 body s this) as [[[s' this'] tr] |];
      reflexivity.
  - unfold bind. destruct (body i s this) as [[[s1 this1] tr1] |];
      [| reflexivity].
    rewrite IH. unfold bind.
    destruct (for_each l1 body s1 this1) as [[[s2 this2] tr2] |]; [| reflexivity].
    destruct (for_each l2 body s2 this2) as [[[s3 this3] tr3] |]; [| reflexivity].
    rewrite app_assoc. reflexivity.
Qed.

Lemma for_loopM_S {S : Type} (n : nat) (body : nat -> S -> M S) (s : S)
    (this : ModelParametersLWR) :
  for_loopM (Datatypes.S n) body s this =
    match for_loopM n body s this with
    | None => None
    | Some (s', this', tr) =>
        match body n s' this' with
        | None => None
        | Some (s'', this'', tr') => Some (s'', this'', tr ++ tr')
        end
    end.
Proof.
  unfold for_loopM. rewrite seq_S, for_each_app. unfold bind. simpl.
  destruct (for_each (seq 0 n) body s this) as [[[s' this'] tr] |]; [| reflexivity].
  unfold bind, ret. destruct (body n s' this') as [[[s'' this''] tr'] |];
    [| reflexivity].
  rewrite app_nil_r. reflexivity.
Qed.

Lemma clears_app (c1 c2 : bool) (tr1 tr2 : list Event) :
  clears c1 tr1 -> clears c2 tr2 -> clears (c1 || c2) (tr1 ++ tr2).
Proof.
  intros (k1 & -> & H1) (k2 & -> & H2). exists (k1 + k2). split.
  - symmetry. apply repeat_app.
  - rewrite orb_true_iff, H1, H2. lia.
Qed.

Lemma clears_false_nil (tr : list Event) : clears false tr -> tr = [].
Proof.
  intros (k & -> & H). destruct k; [reflexivity |].
  exfalso. assert (false = true) by (apply H; lia). discriminate.
Qed.

Lemma clears_true_In (c : bool) (tr : list Event) :
  clears c tr -> (In call_clearCache tr <-> c = true).
Proof.
  intros (k & -> & H). rewrite H. split.
  - intros Hin. destruct k; [destruct Hin | lia].
  - intros Hk. destruct k; [lia | left; reflexivity].
Qed.

Lemma col_partial (n d i : nat) (V dC : list R) :
  i * n <= length V ->
  col (Matrix n d (firstn (i * n) V ++ skipn (i * n) dC)) i = segment dC (i * n) n.
Proof.
  intros HV. unfold col, segment; simpl. f_equal.
  rewrite skipn_app, firstn_length_le by assumption.
  rewrite (skipn_all2 (n := i * n)) by (rewrite length_firstn; lia).
  rewrite Nat.sub_diag. reflexivity.
Qed.

Lemma set_col_partial (n d i : nat) (V dC : list R) :
  i * n + n <= length V -> i * n + n <= length dC ->
  set_col (Matrix n d (firstn (i * n) V ++ skipn (i * n) dC)) i (segment V (i * n) n)
  = Matrix n d (firstn (Datatypes.S i * n) V ++ skipn (Datatypes.S i * n) dC).
Proof.
  intros HV HC. unfold set_col; simpl rows; simpl cols; simpl data. f_equal.
  assert (Hl : length (firstn (i * n) V) = i * n) by (rewrite length_firstn; lia).
  rewrite <- Hl at 3.
  rewrite set_segment_app
    by (rewrite length_segment, length_skipn by lia; lia).
  rewrite length_segment by lia. rewrite app_assoc, firstn_segment_step.
  rewrite skipn_skipn. f_equal; f_equal; lia.
Qed.

Lemma segment_skipn (values : list R) (off k n : nat) :
  segment values (off + k) n = segment (skipn off values) k n.
Proof. unfold segment. rewrite skipn_skipn. f_equal. f_equal. lia. Qed.

Lemma write_centers_col_eval (values : VectorXd) (n i off : nat)
    (this : ModelParametersLWR) :
  write_centers_col values n i off this =
    let e := array_eq_all (col (centers_ this) i) (segment values off n) in
    Some (off + n,
          clear_if (negb e)
            (set_centers_ (set_col (centers_ this) i (segment values off n)) this),
          if e then [] else [call_clearCache]).
Proof.
  unfold write_centers_col, bind, get. cbv zeta.
  destruct (array_eq_all _ _); reflexivity.
Qed.

Lemma centers_loop (values : VectorXd) (off0 : nat) (this0 : ModelParametersLWR)
    (i : nat) :
  wf (centers_ this0) ->
  off0 + rows (centers_ this0) * cols (centers_ this0) <= length values ->
  i <= cols (centers_ this0) ->
  let n := rows (centers_ this0) in
  let V := skipn off0 values in
  let c := negb (array_eq_all (firstn (i * n) (data (centers_ this0)))
                   (firstn (i * n) V)) in
  exists tr,
    for_loopM i (write_centers_col values n) off0 this0
    = Some (off0 + i * n,
            clear_if c
              (set_centers_
                 (Matrix n (cols (centers_ this0))
                    (firstn (i * n) V ++ skipn (i * n) (data (centers_ this0))))
                 this0),
            tr)
    /\ clears c tr.
Proof.
  intros Hwf Hlen. red in Hwf. induction i as [| i IH]; intros Hi n V c.
  - exists []. split.
    + unfold for_loopM; simpl. unfold ret. subst c. simpl.
      rewrite Nat.add_0_r. destruct this0 as [[] [] [] ? ? ? ? ? ? ? ?].
      reflexivity.
    + exists 0. split; [reflexivity |]. subst c. simpl. split; [discriminate | lia].
  - destruct IH as (tr & Hloop & Hcl); [lia |].
    pose proof (mul_succ_le i (cols (centers_ this0)) n ltac:(lia)) as Hle.
    assert (HV : length V = length values - off0) by (subst V; apply length_skipn).
    rewrite for_loopM_S. fold n V in Hloop. rewrite Hloop. clear Hloop.
    rewrite write_centers_col_eval. cbv zeta.
    set (ci := negb (array_eq_all (firstn (i * n) (data (centers_ this0)))
                       (firstn (i * n) V))) in *.
    assert (Hcen : forall b M (t : ModelParametersLWR),
               centers_ (clear_if b (set_centers_ M t)) = M)
      by (intros [] ? ?; reflexivity).
    rewrite Hcen.
    rewrite col_partial by (fold n in Hlen, Hle; lia).
    rewrite segment_skipn. fold V.
    rewrite set_col_partial by (fold n in Hlen, Hle; lia).
    set (e := array_eq_all (segment (data (centers_ this0)) (i * n) n)
                (segment V (i * n) n)).
    assert (Hc : c = ci || negb e).
    { subst c ci e. simpl Nat.mul. rewrite (Nat.add_comm n (i * n)).
      rewrite <- !firstn_segment_step.
      rewrite array_eq_all_app
        by (rewrite !length_firstn; fold n in Hlen, Hle; lia).
      apply negb_andb. }
    exists (tr ++ (if e then [] else [call_clearCache])). split.
    + rewrite Hc.
      replace (off0 + i * n + n) with (off0 + Datatypes.S i * n) by (simpl; lia).
      destruct ci, e; reflexivity.
    + rewrite Hc. apply clears_app; [assumption |].
      destruct e; [exists 0 | exists 1]; simpl;
        (split; [reflexivity | split; (discriminate || lia || reflexivity)]).
Qed.

Lemma write_widths_col_eval (values : VectorXd) (n i off : nat)
    (this : ModelParametersLWR) :
  write_widths_col values n i off this =
    let e := array_eq_all (col (widths_ this) i) (segment values off n) in
    Some (off + n,
          clear_if (negb e)
            (set_widths_ (set_col (widths_ this) i (segment values off n)) this),
          if e then [] else [call_clearCache]).
Proof.
  unfold write_widths_col, bind, get. cbv zeta.
  destruct (array_eq_all _ _); reflexivity.
Qed.

Lemma widths_loop (values : VectorXd) (off0 : nat) (this0 : ModelParametersLWR)
    (i : nat) :
  wf (widths_ this0) ->
  off0 + rows (widths_ this0) * cols (widths_ this0) <= length values ->
  i <= cols (widths_ this0) ->
  let n := rows (widths_ this0) in
  let V := skipn off0 values in
  let c := negb (array_eq_all (firstn (i * n) (data (widths_ this0)))
                   (firstn (i * n) V)) in
  exists tr,
    for_loopM i (write_widths_col values n) off0 this0
    = Some (off0 + i * n,
            clear_if c
              (set_widths_
                 (Matrix n (cols (widths_ this0))
                    (firstn (i * n) V ++ skipn (i * n) (data (widths_ this0))))
                 this0),
            tr)
    /\ clears c tr.
Proof.
  intros Hwf Hlen. red in Hwf. induction i as [| i IH]; intros Hi n V c.
  - exists []. split.
    + unfold for_loopM; simpl. unfold ret. subst c. simpl.
      rewrite Nat.add_0_r. destruct this0 as [[] [] [] ? ? ? ? ? ? ? ?].
      reflexivity.
    + exists 0. split; [reflexivity |]. subst c. simpl. split; [discriminate | lia].
  - destruct IH as (tr & Hloop & Hcl); [lia |].
    pose proof (mul_succ_le i (cols (widths_ this0)) n ltac:(lia)) as Hle.
    assert (HV : length V = length values - off0) by (subst V; apply length_skipn).
    rewrite for_loopM_S. fold n V in Hloop. rewrite Hloop. clear Hloop.
    rewrite write_widths_col_eval. cbv zeta.
    set (ci := negb (array_eq_all (firstn (i * n) (data (widths_ this0)))
                       (firstn (i * n) V))) in *.
    assert (Hwid : forall b M (t : ModelParametersLWR),
               widths_ (clear_if b (set_widths_ M t)) = M)
      by (intros [] ? ?; reflexivity).
    rewrite Hwid.
    rewrite col_partial by (fold n in Hlen, Hle; lia).
    rewrite segment_skipn. fold V.
    rewrite set_col_partial by (fold n in Hlen, Hle; lia).
    set (e := array_eq_all (segment (data (widths_ this0)) (i * n) n)
                (segment V (i * n) n)).
    assert (Hc : c = ci || negb e).
    { subst c ci e. simpl Nat.mul. rewrite (Nat.add_comm n (i * n)).
      rewrite <- !firstn_segment_step.
      rewrite array_eq_all_app
        by (rewrite !length_firstn; fold n in Hlen, Hle; lia).
      apply negb_andb. }
    exists (tr ++ (if e then [] else [call_clearCache])). split.
    + rewrite Hc.
      replace (off0 + i * n + n) with (off0 + Datatypes.S i * n) by (simpl; lia).
      destruct ci, e; reflexivity.
    + rewrite Hc. apply clears_app; [assumption |].
      destruct e; [exists 0 | exists 1]; simpl;
        (split; [reflexivity | split; (discriminate || lia || reflexivity)]).
Qed.

Lemma write_slopes_col_eval (values : VectorXd) (n i off : nat)
    (this : ModelParametersLWR) :
  write_slopes_col values n i off this =
    Some (off + n,
          set_slopes_ (set_col (slopes_ this) i (segment values off n)) this,
          []).
Proof. reflexivity. Qed.

Lemma slopes_loop (values : VectorXd) (off0 : nat) (this0 : ModelParametersLWR)
    (i : nat) :
  wf (slopes_ this0) ->
  off0 + rows (slopes_ this0) * cols (slopes_ this0) <= length values ->
  i <= cols (slopes_ this0) ->
  let n := rows (slopes_ this0) in
  let V := skipn off0 values in
  for_loopM i (write_slopes_col values n) off0 this0
  = Some (off0 + i * n,
          set_slopes_
            (Matrix n (cols (slopes_ this0))
               (firstn (i * n) V ++ skipn (i * n) (data (slopes_ this0))))
            this0,
          []).
Proof.
  intros Hwf Hlen. red in Hwf. induction i as [| i IH]; intros Hi n V.
  - unfold for_loopM; simpl. unfold ret. rewrite Nat.add_0_r.
    destruct this0 as [[] [] [] ? ? ? ? ? ? ? ?]. reflexivity.
  - pose proof (mul_succ_le i (cols (slopes_ this0)) n ltac:(lia)) as Hle.
    assert (HV : length V = length values - off0) by (subst V; apply length_skipn).
    rewrite for_loopM_S. specialize (IH ltac:(lia)). fold n V in IH. rewrite IH.
    rewrite write_slopes_col_eval. simpl slopes_.
    rewrite segment_skipn. fold V.
    rewrite set_col_partial by (fold n in Hlen, Hle; lia).
    replace (off0 + i * n + n) with (off0 + Datatypes.S i * n) by (simpl; lia).
    reflexivity.
Qed.

Lemma bind_get {B : Type} (k : ModelParametersLWR -> M B) (this : ModelParametersLWR) :
  bind get k this = k this this.
Proof. unfold bind, get. destruct (k this this) as [[[? ?] ?] |]; reflexivity. Qed.

Lemma bind_modify {B : Type} (f : ModelParametersLWR -> ModelParametersLWR)
    (k : unit -> M B) (this : ModelParametersLWR) :
  bind (modify f) k this = k tt (f this).
Proof. unfold bind, modify. destruct (k tt (f this)) as [[[? ?] ?] |]; reflexivity. Qed.

Lemma bind_ret {A B : Type} (a : A) (k : A -> M B) (this : ModelParametersLWR) :
  bind (ret a) k this = k a this.
Proof. unfold bind, ret. destruct (k a this) as [[[? ?] ?] |]; reflexivity. Qed.

Lemma bind_Some {A B : Type} (m : M A) (k : A -> M B) (this this' : ModelParametersLWR)
    (a : A) (tr : list Event) :
  m this = Some (a, this', tr) ->
  bind m k this =
    match k a this' with
    | Some (b, this'', tr') => Some (b, this'', tr ++ tr')
    | None => None
    end.
Proof. intros H. unfold bind. rewrite H. reflexivity. Qed.

Lemma partial_full (n d : nat) (V dC : list R) :
  length dC = n * d ->
  firstn (d * n) V ++ skipn (d * n) dC = segment V 0 (n * d).
Proof.
  intros Hl. rewrite skipn_all2 by lia. rewrite app_nil_r.
  unfold segment. simpl. f_equal. lia.
Qed.

Lemma fields_clear_if (b : bool) (t : ModelParametersLWR) :
  centers_ (clear_if b t) = centers_ t /\ widths_ (clear_if b t) = widths_ t
  /\ slopes_ (clear_if b t) = slopes_ t /\ offsets_ (clear_if b t) = offsets_ t
  /\ all_values_vector_size_ (clear_if b t) = all_values_vector_size_ t.
Proof. destruct b; repeat split. Qed.

(** What [setParameterVectorAll] does with a vector of the right length on
    a model whose sizes agree: the four blocks are written back, and the
    cache entry is emptied exactly when the centers or the widths block
    differs from the current values. *)
Lemma setParameterVectorAll_spec (values : VectorXd) (this : ModelParametersLWR) :
  shapes_ok this -> length values = all_values_vector_size_ this ->
  let n := rows (centers_ this) in
  let d := cols (centers_ this) in
  let N := n * d in
  let c := kernel_block_differs this values in
  exists tr,
    setParameterVectorAll values this
    = Some (tt,
            clear_if c
              (Build (Matrix n d (segment values 0 N))
                 (Matrix n d (segment values N N))
                 (Matrix n d (segment values (N + N + n) N))
                 (Matrix n 1 (segment values (N + N) n))
                 (asymmetric_kernels_ this) (lines_pivot_at_max_activation_ this)
                 (slopes_as_angles_ this) (all_values_vector_size_ this)
                 (caching_ this) (inputs_cached_ this)
                 (normalized_kernel_activations_cached_ this)),
            tr)
    /\ clears c tr.
Proof.
  intros (Hc & Hw & Hs & Ho & Hrw & Hcw & Hrs & Hcs & Hro & Hco & Hsize) Hlen
    n d N c.
  assert (HN : length values = N + N + n + N).
  { rewrite Hlen, Hsize, Hrw, Hcw, Hrs, Hcs, Hro, Hco. subst N n d. lia. }
  unfold setParameterVectorAll. rewrite bind_get.
  replace (all_values_vector_size_ this =? length values) with true
    by (symmetry; apply Nat.eqb_eq; congruence).
  cbv beta iota zeta. change (negb true) with false. cbv iota.
  fold n d.
  (* centers *)
  destruct (centers_loop values 0 this d Hc ltac:(fold n d N; lia) ltac:(lia))
    as (tr1 & E1 & Hcl1).
  fold n d in E1, Hcl1. rewrite (bind_Some _ _ _ _ _ _ E1). clear E1.
  change (skipn 0 values) with values in *.
  red in Hc. fold n d N in Hc. rewrite (partial_full n d values _ Hc).
  set (c1 := negb (array_eq_all (firstn (d * n) (data (centers_ this)))
                     (firstn (d * n) values))) in *.
  set (this1 := clear_if c1 (set_centers_ (Matrix n d (segment values 0 (n * d))) this)).
  (* widths *)
  pose proof (fields_clear_if c1
                (set_centers_ (Matrix n d (segment values 0 (n * d))) this))
    as (_ & F1w & F1s & F1o & F1z).
  fold this1 in F1w, F1s, F1o, F1z. simpl in F1w, F1s, F1o, F1z.
  assert (Hw1 : wf (widths_ this1)) by (rewrite F1w; assumption).
  destruct (widths_loop values (0 + d * n) this1 d Hw1) as (tr2 & E2 & Hcl2).
  { rewrite F1w, Hrw, Hcw. fold n d N. lia. }
  { rewrite F1w, Hcw. reflexivity. }
  rewrite F1w, Hrw in Hcl2. rewrite F1w, Hrw, Hcw in E2. fold n d in E2, Hcl2.
  rewrite (bind_Some _ _ _ _ _ _ E2). clear E2.
  red in Hw. rewrite Hrw, Hcw in Hw. fold n d N in Hw.
  rewrite (partial_full n d _ _ Hw), <- segment_skipn.
  set (c2 := negb (array_eq_all (firstn (d * n) (data (widths_ this)))
                     (firstn (d * n) (skipn (0 + d * n) values)))) in *.
  set (this2 := clear_if c2
                  (set_widths_ (Matrix n d (segment values (0 + d * n + 0) (n * d)))
                     this1)).
  (* offsets *)
  rewrite bind_modify.
  set (this3 := set_offsets_ (of_vector (segment values (0 + d * n + d * n) n)) this2).
  rewrite (bind_Some (bind get (fun t => ret (slopes_ t))) _ this3 this3
             (slopes_ this3) [] eq_refl).
  (* slopes *)
  assert (F3 : slopes_ this3 = slopes_ this /\
               all_values_vector_size_ this3 = all_values_vector_size_ this).
  { subst this3 this2 this1. destruct c1, c2; split; reflexivity. }
  destruct F3 as [F3s F3z].
  assert (Hs3 : wf (slopes_ this3)) by (rewrite F3s; assumption).
  pose proof (slopes_loop values (0 + d * n + d * n + n) this3 d Hs3) as E3.
  rewrite F3s, Hrs, Hcs in E3. fold n d N in E3.
  specialize (E3 ltac:(lia) ltac:(lia)). cbv zeta in E3.
  rewrite (bind_Some _ _ _ _ _ _ E3). clear E3.
  red in Hs. rewrite Hrs, Hcs in Hs. fold n d N in Hs.
  rewrite (partial_full n d _ _ Hs), <- segment_skipn.
  rewrite bind_get. unfold assert, getParameterVectorAllSize.
  change (all_values_vector_size_ (set_slopes_ ?m this3))
    with (all_values_vector_size_ this3).
  replace (0 + d * n + d * n + n + d * n =? all_values_vector_size_ this3) with true
    by (symmetry; apply Nat.eqb_eq; rewrite F3z, <- Hlen, HN; subst N; lia).
  cbv beta iota. rewrite !app_nil_l, app_nil_r.
  assert (Hcc : c = c1 || c2).
  { subst c c1 c2. unfold kernel_block_differs, kernel_block. fold n d N.
    replace (2 * N) with (N + N) by lia.
    rewrite <- (take_take_drop values N N).
    rewrite array_eq_all_app by (rewrite length_firstn; lia).
    rewrite negb_andb. replace (d * n) with N by (subst N; lia).
    rewrite Nat.add_0_l.
    rewrite (firstn_all2 (data (centers_ this))) by lia.
    rewrite (firstn_all2 (data (widths_ this))) by lia.
    reflexivity. }
  exists (tr1 ++ tr2). split.
  - f_equal. f_equal. f_equal. rewrite Hcc.
    subst this3 this2 this1. unfold of_vector.
    replace (d * n) with N by (subst N; lia). fold N.
    rewrite ?Nat.add_0_l, ?Nat.add_0_r.
    rewrite (length_segment values (N + N) n) by lia.
    destruct c1, c2; reflexivity.
  - rewrite Hcc. apply clears_app; assumption.
Qed.

Lemma segment_app_l (A B : list R) : segment (A ++ B) 0 (length A) = A.
Proof. unfold segment. simpl. apply take_app_length. Qed.

Lemma segment_app_r (A B : list R) (k n : nat) :
  segment (A ++ B) (length A + k) n = segment B k n.
Proof.
  unfold segment. rewrite skipn_app.
  rewrite (skipn_all2 (n := length A + k) A) by lia. simpl.
  do 2 f_equal. lia.
Qed.

Lemma flat_segments (A B C D : list R) (N n : nat) :
  length A = N -> length B = N -> length C = n -> length D = N ->
  segment (A ++ B ++ C ++ D) 0 N = A
  /\ segment (A ++ B ++ C ++ D) N N = B
  /\ segment (A ++ B ++ C ++ D) (N + N) n = C
  /\ segment (A ++ B ++ C ++ D) (N + N + n) N = D.
Proof.
  intros <- HB <- HD. repeat split.
  - apply segment_app_l.
  - rewrite <- (Nat.add_0_r (length A)) at 1. rewrite segment_app_r.
    rewrite <- HB. apply segment_app_l.
  - rewrite segment_app_r, <- HB.
    rewrite <- (Nat.add_0_r (length B)), segment_app_r.
    apply segment_app_l.
  - rewrite <- !Nat.add_assoc, segment_app_r, <- HB, segment_app_r.
    rewrite <- (Nat.add_0_r (length C)), segment_app_r.
    rewrite HB, <- HD. unfold segment. simpl. apply firstn_all.
Qed.

Lemma array_eq_all_false_nth (a b : list R) :
  length a = length b -> array_eq_all a b = false ->
  exists k, k < length a /\ nth k a 0%R <> nth k b 0%R.
Proof.
  unfold array_eq_all. revert b.
  induction a as [| x a IH]; intros [| y b] Hlen H; simpl in *; try discriminate.
  unfold Reqb in H. destruct (Req_dec_T x y) as [-> | Hne]; simpl in H.
  - destruct (IH b ltac:(lia) H) as (k & Hk & Hnth).
    exists (Datatypes.S k). split; [lia | assumption].
  - exists 0. split; [lia | assumption].
Qed.

(** The centers or widths block of [values] differs from the current
    values exactly when some position of the block holds another value. *)
Lemma kernel_block_differs_iff (this : ModelParametersLWR) (values : VectorXd) :
  shapes_ok this -> length values = all_values_vector_size_ this ->
  (kernel_block_differs this values = true <->
   exists k, k < 2 * (rows (centers_ this) * cols (centers_ this))
             /\ nth k values 0%R
                <> nth k (data (centers_ this) ++ data (widths_ this)) 0%R).
Proof.
  intros (Hc & Hw & Hs & Ho & Hrw & Hcw & Hrs & Hcs & Hro & Hco & Hsize) Hlen.
  red in Hc, Hw. rewrite Hrw, Hcw in Hw.
  set (N := rows (centers_ this) * cols (centers_ this)) in *.
  assert (HN : 2 * N <= length values).
  { rewrite Hlen, Hsize, Hrw, Hcw. fold N. lia. }
  assert (Hl : length (data (centers_ this) ++ data (widths_ this))
               = length (kernel_block this values)).
  { unfold kernel_block. fold N. rewrite length_app, length_firstn. lia. }
  unfold kernel_block_differs. rewrite negb_true_iff. split.
  - intros H. destruct (array_eq_all_false_nth _ _ Hl H) as (k & Hk & Hnth).
    rewrite length_app in Hk. exists k. split; [lia |].
    unfold kernel_block in Hnth. fold N in Hnth. rewrite nth_firstn in Hnth.
    destruct (Nat.ltb_spec k (2 * N)); [| lia]. congruence.
  - intros (k & Hk & Hnth).
    destruct (array_eq_all _ _) eqn:E; [| reflexivity]. exfalso.
    apply array_eq_all_true_iff in E; [| assumption].
    apply Hnth. rewrite E. unfold kernel_block. fold N. rewrite nth_firstn.
    destruct (Nat.ltb_spec k (2 * N)); [reflexivity | lia].
Qed.

Lemma wrong_size_is_reported (values : VectorXd)
    (this : ModelParametersLWR) :
  length values <> getParameterVectorAllSize this ->
  setParameterVectorAll values this
  = Some (tt, this, [cerr 446 ": values is of wrong size."]).
Proof.
  intros Hne. unfold setParameterVectorAll, getParameterVectorAllSize in *.
  rewrite bind_get.
  replace (all_values_vector_size_ this =? length values) with false
    by (symmetry; apply Nat.eqb_neq; congruence).
  reflexivity.
Qed.

(** C8.  A vector whose length differs from [getParameterVectorAllSize()]
    makes [setParameterVectorAll] write one line to [std::cerr] and return
    with the whole state, cache entry included, exactly as it was. *)
Theorem setParameterVectorAll_wrong_size (values : VectorXd)
    (this : ModelParametersLWR) :
  length values <> getParameterVectorAllSize this ->
  setParameterVectorAll values this
  = Some (tt, this, [cerr 446 ": values is of wrong size."]).
Proof. apply wrong_size_is_reported. Qed.

Lemma setParameterVectorAll_wrong_size_witness :
  setParameterVectorAll [1; 2; 3]%R (scenario false false)
  = Some (tt, scenario false false, [cerr 446 ": values is of wrong size."]).
Proof.
  apply (setParameterVectorAll_wrong_size [1; 2; 3]%R (scenario false false)).
  simpl. lia.
Defined.

(** C2.  On a vector of the right length [setParameterVectorAll] calls
    [clearCache()] if and only if some value of the centers block or of the
    widths block differs from the current one; then the cache entry is
    empty afterwards, and otherwise it is untouched, whatever the offsets
    and slopes blocks hold. *)
Theorem setParameterVectorAll_cache_invalidation (values : VectorXd)
    (this : ModelParametersLWR) :
  shapes_ok this -> length values = getParameterVectorAllSize this ->
  let differs :=
    exists k, k < 2 * (rows (centers_ this) * cols (centers_ this))
              /\ nth k values 0%R
                 <> nth k (data (centers_ this) ++ data (widths_ this)) 0%R in
  exists this' tr,
    setParameterVectorAll values this = Some (tt, this', tr)
    /\ (In call_clearCache tr <-> differs)
    /\ (differs ->
        inputs_cached_ this' = Empty
        /\ normalized_kernel_activations_cached_ this' = Empty)
    /\ (~ differs ->
        tr = []
        /\ inputs_cached_ this' = inputs_cached_ this
        /\ normalized_kernel_activations_cached_ this'
           = normalized_kernel_activations_cached_ this).
Proof.
  intros Hshape Hlen differs. unfold getParameterVectorAllSize in Hlen.
  destruct (setParameterVectorAll_spec values this Hshape Hlen) as (tr & E & Hcl).
  pose proof (kernel_block_differs_iff this values Hshape Hlen) as Hiff.
  fold differs in Hiff.
  eexists. exists tr. split; [exact E |]. split; [| split].
  - rewrite (clears_true_In _ _ Hcl). exact Hiff.
  - intros Hd. apply Hiff in Hd. rewrite Hd. split; reflexivity.
  - intros Hnd. destruct (kernel_block_differs this values) eqn:Ek.
    + exfalso. apply Hnd, Hiff. reflexivity.
    + split; [apply clears_false_nil; assumption |]. split; reflexivity.
Qed.

Lemma setParameterVectorAll_cache_invalidation_witness :
  exists this' tr,
    setParameterVectorAll [0; 10; 2; 3; 5; 5; 7; 7]%R (scenario false false)
    = Some (tt, this', tr)
    /\ In call_clearCache tr.
Proof.
  assert (Hs : shapes_ok (scenario false false))
    by (repeat split; reflexivity).
  destruct (setParameterVectorAll_cache_invalidation [0; 10; 2; 3; 5; 5; 7; 7]%R
              (scenario false false) Hs eq_refl) as (this' & tr & E & Hin & _).
  exists this', tr. split; [exact E |]. apply Hin.
  exists 3. split; [simpl; lia |]. simpl. lra.
Defined.

(** C1.  On a model that satisfies the class invariant,
    [getParameterVectorAll()] returns a vector [values], and
    [setParameterVectorAll(values)] then leaves the whole state as it was:
    centers, widths, offsets and slopes (and the cache entry, which is not
    cleared); so [getLines], [normalizedKernelActivations] and
    [locallyWeightedLines] return afterwards what they returned before, on
    every input batch. *)
Theorem parameter_vector_round_trip (this : ModelParametersLWR) :
  Inv this ->
  exists values,
    getParameterVectorAll this = Some values
    /\ setParameterVectorAll values this = Some (tt, this, [])
    /\ forall this' tr,
         setParameterVectorAll values this = Some (tt, this', tr) ->
         centers_ this' = centers_ this /\ widths_ this' = widths_ this
         /\ offsets_ this' = offsets_ this /\ slopes_ this' = slopes_ this
         /\ forall inputs,
              getLines this' inputs = getLines this inputs
              /\ normalizedKernelActivations inputs this'
                 = normalizedKernelActivations inputs this
              /\ locallyWeightedLines inputs this'
                 = locallyWeightedLines inputs this.
Proof.
  intros HInv. exists (flat_parameters this).
  split; [apply getParameterVectorAll_flat; assumption |].
  destruct HInv as [Hshape Hang].
  assert (Hset : setParameterVectorAll (flat_parameters this) this
                 = Some (tt, this, [])).
  { pose proof Hshape
      as (Hc & Hw & Hs & Ho & Hrw & Hcw & Hrs & Hcs & Hro & Hco & Hsize).
    red in Hc, Hw, Hs, Ho. rewrite Hrw, Hcw in Hw. rewrite Hrs, Hcs in Hs.
    rewrite Hro, Hco, Nat.mul_1_r in Ho.
    assert (Hlen : length (flat_parameters this) = all_values_vector_size_ this).
    { unfold flat_parameters. rewrite !length_app, Hc, Hw, Hs, Ho, Hsize.
      rewrite Hrw, Hcw, Hrs, Hcs, Hro, Hco. lia. }
    destruct (setParameterVectorAll_spec _ this Hshape Hlen) as (tr & E & Hcl).
    cbv zeta in E, Hcl.
    assert (Hk : kernel_block_differs this (flat_parameters this) = false).
    { unfold kernel_block_differs, kernel_block, flat_parameters.
      rewrite app_assoc.
      replace (2 * (rows (centers_ this) * cols (centers_ this)))
        with (length (data (centers_ this) ++ data (widths_ this)))
        by (rewrite length_app, Hc, Hw; lia).
      rewrite take_app_length, array_eq_all_refl. reflexivity. }
    rewrite Hk in E, Hcl. apply clears_false_nil in Hcl. subst tr.
    rewrite E. f_equal. f_equal. f_equal. unfold clear_if.
    destruct (flat_segments _ _ _ _ _ _ Hc Hw Ho Hs) as (S1 & S2 & S3 & S4).
    unfold flat_parameters. rewrite S1, S2, S3, S4.
    clear - Hrw Hcw Hrs Hcs Hro Hco.
    destruct this as [[rc cc dc] [rw cw dw] [rs cs ds] [ro co do] ? ? ? ? ? ? ?].
    simpl in *. subst. reflexivity. }
  split; [exact Hset |].
  intros this' tr E. rewrite Hset in E. inversion E; subst this' tr.
  repeat split; reflexivity.
Qed.

Lemma parameter_vector_round_trip_witness :
  exists values,
    getParameterVectorAll (scenario true true) = Some values
    /\ setParameterVectorAll values (scenario true true)
       = Some (tt, scenario true true, []).
Proof.
  destruct (parameter_vector_round_trip (scenario true true)
              ltac:(repeat split; reflexivity)) as (values & Hget & Hset & _).
  exists values. split; [exact Hget | exact Hset].
Defined.

End Codec.

(** ** The pivot of the lines *)

Section Pivot.
Local Open Scope R_scope.

Lemma from_fun_ext (r c : nat) (f g : nat -> nat -> R) :
  (forall i j, (i < r)%nat -> (j < c)%nat -> f i j = g i j) ->
  from_fun r c f = from_fun r c g.
Proof.
  intros H. unfold from_fun. f_equal.
  assert (Hl : forall l : list nat,
             (forall j, In j l -> (j < c)%nat) ->
             flat_map (fun j => map (fun i => f i j) (seq 0 r)) l
             = flat_map (fun j => map (fun i => g i j) (seq 0 r)) l).
  { induction l as [| j l IH]; intros Hin; simpl; [reflexivity |].
    rewrite IH by (intros; apply Hin; right; assumption). f_equal.
    apply map_ext_in. intros i Hi. apply in_seq in Hi.
    apply H; [lia | apply Hin; left; reflexivity]. }
  apply Hl. intros j Hj. apply in_seq in Hj. lia.
Qed.

Lemma from_fun_coeff (m : MatrixXd) :
  wf m -> from_fun (rows m) (cols m) (coeff m) = m.
Proof.
  intros Hwf. destruct m as [r c dm]. unfold wf in Hwf. simpl in *.
  unfold from_fun. f_equal.
  apply nth_ext with (d := 0) (d' := 0).
  - rewrite length_flat_map_seq. symmetry. assumption.
  - intros k Hk. rewrite length_flat_map_seq in Hk.
    assert (Hr : (0 < r)%nat) by (destruct r; [simpl in Hk |]; lia).
    assert (Hdm : k = (k mod r + (k / r) * r)%nat).
    { rewrite (Nat.div_mod_eq k r) at 1. lia. }
    assert (Hi : (k mod r < r)%nat) by (apply Nat.mod_upper_bound; lia).
    assert (Hj : (k / r < c)%nat) by (apply Nat.Div0.div_lt_upper_bound; lia).
    rewrite Hdm at 1.
    rewrite (nth_flat_map_seq (coeff (Matrix r c dm)) r c 0 _ _ Hi Hj).
    unfold coeff. simpl. rewrite <- Hdm. reflexivity.
Qed.

Lemma zip_with_map_map (f : R -> R -> R) (g h : nat -> R) (l : list nat) :
  zip_with f (map g l) (map h l) = map (fun x => f (g x) (h x)) l.
Proof. induction l as [| x l IH]; simpl; [reflexivity | rewrite IH; reflexivity]. Qed.

Lemma vset_loop (f : nat -> R) (n k : nat) :
  (k <= n)%nat ->
  let ac := for_loop k (fun i ac => vset ac i (f i)) (repeat 0 n) in
  length ac = n /\ forall i, (i < k)%nat -> nth i ac 0 = f i.
Proof.
  induction k as [| k IH]; intros Hk; cbv zeta.
  - rewrite for_loop_0, repeat_length. split; [reflexivity | intros; lia].
  - rewrite for_loop_S. destruct IH as [Hlen Hnth]; [lia |].
    set (ac := for_loop k (fun i ac => vset ac i (f i)) (repeat 0 n)) in *.
    cbv beta. unfold vset. rewrite length_insert. split; [assumption |].
    intros i Hi. rewrite nth_lookup, list_lookup_insert.
    destruct (decide (k = i /\ (k < length ac)%nat)) as [[-> _] | Hn].
    + reflexivity.
    + rewrite <- nth_lookup. apply Hnth. lia.
Qed.

(** The vector [ac] holds the per-basis dot products. *)
Lemma slopes_times_centers_nth (this : ModelParametersLWR) (b : nat) :
  cols (slopes_ this) = cols (centers_ this) -> (b < rows (centers_ this))%nat ->
  length (slopes_times_centers this) = rows (centers_ this)
  /\ nth b (slopes_times_centers this) 0 = ac_of this b.
Proof.
  intros Hcs Hb. unfold slopes_times_centers. cbv zeta.
  destruct (vset_loop
              (fun i => dot (row (slopes_ this) i) (row (centers_ this) i))
              (rows (centers_ this)) (rows (centers_ this)) (le_n _))
    as [Hlen Hnth].
  split; [exact Hlen |]. rewrite (Hnth b Hb).
  unfold dot, row, ac_of. rewrite Hcs, zip_with_map_map. reflexivity.
Qed.

Lemma coeff_of_vector (v : VectorXd) (i : nat) : coeff (of_vector v) i 0 = nth i v 0.
Proof. unfold coeff, of_vector. simpl. f_equal. lia. Qed.

(** The state [set_lines_pivot_at_max_activation] leaves. *)
Lemma set_lines_pivot_result (new_value : bool) (this : ModelParametersLWR) :
  set_lines_pivot_at_max_activation new_value this =
    Some (tt,
          if Bool.eqb (lines_pivot_at_max_activation_ this) new_value
          then this
          else
            set_lines_pivot_ new_value
              (set_offsets_
                 ((if new_value then add else sub) (offsets_ this)
                    (of_vector (slopes_times_centers this)))
                 this),
          []).
Proof.
  unfold set_lines_pivot_at_max_activation. rewrite bind_get.
  destruct (Bool.eqb (lines_pivot_at_max_activation_ this) new_value);
    [reflexivity |].
  destruct new_value; rewrite bind_modify; reflexivity.
Qed.

(** C6.  [set_lines_pivot_at_max_activation] returns at once when the flag
    already has the requested value; otherwise it changes the flag and the
    offsets only: centers, widths, slopes, the other flags and the cache
    entry are as before, and offset [b] has gained (switching to the pivot
    at the maximum) or lost (switching away) the dot product
    [slopes(b,.) . centers(b,.)]. *)
Theorem set_lines_pivot_frame (new_value : bool) (this : ModelParametersLWR) :
  (lines_pivot_at_max_activation_ this = new_value ->
     set_lines_pivot_at_max_activation new_value this = Some (tt, this, []))
  /\ (lines_pivot_at_max_activation_ this <> new_value ->
      exists this',
        set_lines_pivot_at_max_activation new_value this = Some (tt, this', [])
        /\ lines_pivot_at_max_activation_ this' = new_value
        /\ centers_ this' = centers_ this /\ widths_ this' = widths_ this
        /\ slopes_ this' = slopes_ this
        /\ asymmetric_kernels_ this' = asymmetric_kernels_ this
        /\ slopes_as_angles_ this' = slopes_as_angles_ this
        /\ all_values_vector_size_ this' = all_values_vector_size_ this
        /\ caching_ this' = caching_ this
        /\ inputs_cached_ this' = inputs_cached_ this
        /\ normalized_kernel_activations_cached_ this'
           = normalized_kernel_activations_cached_ this
        /\ rows (offsets_ this') = rows (offsets_ this)
        /\ cols (offsets_ this') = cols (offsets_ this)
        /\ (shapes_ok this ->
            forall b, (b < rows (centers_ this))%nat ->
              coeff (offsets_ this') b 0 =
                if new_value
                then coeff (offsets_ this) b 0 + ac_of this b
                else coeff (offsets_ this) b 0 - ac_of this b)).
Proof.
  rewrite set_lines_pivot_result. split.
  - intros <-. rewrite Bool.eqb_reflx. reflexivity.
  - intros Hne.
    replace (Bool.eqb (lines_pivot_at_max_activation_ this) new_value) with false
      by (symmetry; apply Bool.eqb_false_iff; assumption).
    eexists. split; [reflexivity |].
    destruct new_value; simpl; repeat (split; [reflexivity |]);
      intros (_ & _ & _ & _ & _ & _ & _ & Hcs & Hro & Hco & _) b Hb;
      destruct (slopes_times_centers_nth this b Hcs Hb) as [_ Hnth].
    + unfold add. rewrite coeff_from_fun by lia.
      rewrite coeff_of_vector, Hnth. reflexivity.
    + unfold sub. rewrite coeff_from_fun by lia.
      rewrite coeff_of_vector, Hnth. reflexivity.
Qed.

Lemma set_lines_pivot_frame_witness :
  set_lines_pivot_at_max_activation false (scenario false false)
  = Some (tt, scenario false false, [])
  /\ exists this',
       set_lines_pivot_at_max_activation true (scenario false false)
       = Some (tt, this', [])
       /\ centers_ this' = centers_ (scenario false false)
       /\ coeff (offsets_ this') 1 0
          = coeff (offsets_ (scenario false false)) 1 0
            + ac_of (scenario false false) 1.
Proof.
  split.
  - apply (proj1 (set_lines_pivot_frame false (scenario false false))).
    reflexivity.
  - destruct (proj2 (set_lines_pivot_frame true (scenario false false))
                ltac:(simpl; discriminate))
      as (this' & E & _ & Hc & _ & _ & _ & _ & _ & _ & _ & _ & _ & _ & Hoff).
    exists this'. split; [exact E |]. split; [exact Hc |].
    apply Hoff; [repeat split; reflexivity | simpl; lia].
Defined.

Lemma add_sub_cancel (o a : MatrixXd) : wf o -> sub (add o a) a = o.
Proof.
  intros Hwf. unfold sub. change (rows (add o a)) with (rows o).
  change (cols (add o a)) with (cols o).
  transitivity (from_fun (rows o) (cols o) (coeff o));
    [| apply from_fun_coeff; assumption].
  apply from_fun_ext.
  intros i j Hi Hj. unfold add. rewrite coeff_from_fun by assumption. ring.
Qed.

Lemma sub_add_cancel (o a : MatrixXd) : wf o -> add (sub o a) a = o.
Proof.
  intros Hwf. unfold add. change (rows (sub o a)) with (rows o).
  change (cols (sub o a)) with (cols o).
  transitivity (from_fun (rows o) (cols o) (coeff o));
    [| apply from_fun_coeff; assumption].
  apply from_fun_ext.
  intros i j Hi Hj. unfold sub. rewrite coeff_from_fun by assumption. ring.
Qed.

(** C5.  Setting [lines_pivot_at_max_activation] to the opposite value and
    then back to the original one restores the offsets exactly, over the
    reals, and with them the whole state; so [getLines] returns after the
    double toggle what it returned before, on every input batch. *)
Theorem pivot_double_toggle (this : ModelParametersLWR) :
  shapes_ok this ->
  let flag := lines_pivot_at_max_activation_ this in
  exists this1,
    set_lines_pivot_at_max_activation (negb flag) this = Some (tt, this1, [])
    /\ lines_pivot_at_max_activation_ this1 = negb flag
    /\ set_lines_pivot_at_max_activation flag this1 = Some (tt, this, [])
    /\ forall this2 tr,
         set_lines_pivot_at_max_activation flag this1 = Some (tt, this2, tr) ->
         offsets_ this2 = offsets_ this
         /\ forall inputs, getLines this2 inputs = getLines this inputs.
Proof.
  intros (_ & _ & _ & Ho & _) flag.
  rewrite set_lines_pivot_result. fold flag.
  replace (Bool.eqb flag (negb flag)) with false by (destruct flag; reflexivity).
  set (this1 := set_lines_pivot_ (negb flag) _).
  assert (E2 : set_lines_pivot_at_max_activation flag this1 = Some (tt, this, [])).
  { rewrite set_lines_pivot_result. subst this1.
    cbn [lines_pivot_at_max_activation_ set_lines_pivot_].
    replace (Bool.eqb (negb flag) flag) with false by (destruct flag; reflexivity).
    cbn [offsets_ set_lines_pivot_ set_offsets_].
    change (slopes_times_centers (set_lines_pivot_ _ (set_offsets_ _ this)))
      with (slopes_times_centers this).
    do 2 f_equal. f_equal.
    subst flag. destruct (lines_pivot_at_max_activation_ this) eqn:Ef; simpl negb;
      cbv iota; [rewrite sub_add_cancel by assumption
                | rewrite add_sub_cancel by assumption];
      destruct this; simpl in *; subst; reflexivity. }
  exists this1. split; [reflexivity |]. split; [reflexivity |].
  split; [exact E2 |].
  intros this2 tr E. rewrite E2 in E. inversion E; subst.
  split; [reflexivity | intros; reflexivity].
Qed.

Lemma pivot_double_toggle_witness :
  exists this1,
    set_lines_pivot_at_max_activation true (scenario false false)
    = Some (tt, this1, [])
    /\ set_lines_pivot_at_max_activation false this1
       = Some (tt, scenario false false, []).
Proof.
  destruct (pivot_double_toggle (scenario false false)
              ltac:(repeat split; reflexivity)) as (this1 & E1 & _ & E2 & _).
  exists this1. split; [exact E1 | exact E2].
Defined.

End Pivot.

(** ** Cloning *)

Section Clone.

(** C9, as the claim states it, fails: the clone of a model whose lines
    pivot at the maximum activation pivots there too. *)
Lemma clone_keeps_pivot_flag :
  clone (scenario true true) = Some (scenario true true)
  /\ lines_pivot_at_max_activation_ (scenario true true) <> false.
Proof. split; [reflexivity | discriminate]. Qed.

(** C9, amended.  [clone()] passes its assertions and returns a model with
    the same centers, widths, slopes and offsets, the same
    [asymmetric_kernels] and [lines_pivot_at_max_activation] flags and the
    same size of the flat vector; what is not carried over is the cache
    entry, which is empty, the caching switch, which is on, and the angle
    flag, which is off. *)
Theorem clone_copies_parameters_and_flags (this : ModelParametersLWR) :
  shapes_ok this ->
  clone this
  = Some (Build (centers_ this) (widths_ this) (slopes_ this) (offsets_ this)
            (asymmetric_kernels_ this) (lines_pivot_at_max_activation_ this)
            false (all_values_vector_size_ this) true Empty Empty).
Proof.
  intros (_ & _ & _ & _ & Hrw & Hcw & Hrs & Hcs & Hro & Hco & Hsize).
  unfold clone, constructor. cbv zeta. simpl.
  rewrite Hrw, Hcw, Hrs, Hcs, Hro, Hco, !Nat.eqb_refl. simpl.
  unfold set_all_values_vector_size_. simpl. rewrite Hsize.
  rewrite Hrw, Hcw, Hrs, Hcs, Hro, Hco. reflexivity.
Qed.

Lemma clone_copies_parameters_and_flags_witness :
  clone (scenario true true)
  = Some (Build (Matrix 2 1 [0; 10]%R) (Matrix 2 1 [2; 2]%R) (Matrix 2 1 [1; 1]%R)
            (Matrix 2 1 [0; 0]%R) true true false 8 true Empty Empty).
Proof.
  apply (clone_copies_parameters_and_flags (scenario true true)).
  repeat split; reflexivity.
Defined.

End Clone.

(** ** The activation cache *)

Section Cache.

(** C3 fails on an empty input batch.  A freshly constructed model holds an
    empty cache entry; a first call with a 0 x 0 input matrix finds the
    cached inputs equal in size and, vacuously, in values, and returns the
    empty cached matrix without calling the static routine.  The static
    routine returns a 0 x 1 matrix for the model with one basis function,
    fails its assertion on the number of columns for the scenario with two
    basis functions on one dimension, and returns a 0 x 2 matrix for the
    model without input dimension, whose sizes the 0 x 0 batch fits. *)
Theorem normalizedKernelActivations_empty_inputs_hit :
  constructor (Matrix 1 1 [0%R]) (Matrix 1 1 [2%R]) (Matrix 1 1 [1%R])
    (Matrix 1 1 [0%R]) false false = Some single_basis
  /\ normalizedKernelActivations Empty single_basis
     = Some (Empty, single_basis, [])
  /\ Static.normalizedKernelActivations (centers_ single_basis)
       (widths_ single_basis) Empty (asymmetric_kernels_ single_basis)
     = Some (Matrix 0 1 [])
  /\ Empty <> Matrix 0 1 []
  /\ normalizedKernelActivations Empty (scenario false false)
     = Some (Empty, scenario false false, [])
  /\ Static.normalizedKernelActivations (centers_ (scenario false false))
       (widths_ (scenario false false)) Empty
       (asymmetric_kernels_ (scenario false false))
     = None
  /\ constructor (Matrix 2 0 []) (Matrix 2 0 []) (Matrix 2 0 [])
       (Matrix 2 1 [0%R; 0%R]) false false = Some zero_dimensional
  /\ normalizedKernelActivations Empty zero_dimensional
     = Some (Empty, zero_dimensional, [])
  /\ Static.normalizedKernelActivations (centers_ zero_dimensional)
       (widths_ zero_dimensional) Empty (asymmetric_kernels_ zero_dimensional)
     = Some (Matrix 0 2 [])
  /\ Empty <> Matrix 0 2 [].
Proof.
  repeat split; try reflexivity; discriminate.
Qed.

(** The two paths of the instance-level [normalizedKernelActivations]. *)
Lemma normalizedKernelActivations_paths (inputs : MatrixXd)
    (this : ModelParametersLWR) :
  normalizedKernelActivations inputs this =
    if caching_ this
       && ((rows inputs =? rows (inputs_cached_ this))
           && (cols inputs =? cols (inputs_cached_ this)))
       && array_eq_all (data inputs) (data (inputs_cached_ this))
    then Some (normalized_kernel_activations_cached_ this, this, [])
    else
      match Static.normalizedKernelActivations (centers_ this) (widths_ this)
              inputs (asymmetric_kernels_ this) with
      | None => None
      | Some v =>
          Some (v, if caching_ this then set_cache_ inputs v this else this,
                [call_normalizedKernelActivations inputs])
      end.
Proof.
  unfold normalizedKernelActivations. rewrite bind_get.
  destruct (caching_ this && _ && _); [reflexivity |].
  unfold bind, emit, lift.
  destruct (Static.normalizedKernelActivations _ _ _ _); [| reflexivity].
  destruct (caching_ this); reflexivity.
Qed.

(** Away from the empty input batch the cache is transparent: when the
    cache entry is coherent, a call returns what the static routine
    computes from the current centers and widths (and fails when it
    fails), and leaves a coherent cache entry. *)
Lemma normalizedKernelActivations_cache_transparent (inputs : MatrixXd)
    (this : ModelParametersLWR) :
  cache_coherent this -> wf inputs -> wf (inputs_cached_ this) ->
  inputs <> Empty ->
  match normalizedKernelActivations inputs this with
  | None =>
      Static.normalizedKernelActivations (centers_ this) (widths_ this) inputs
        (asymmetric_kernels_ this) = None
  | Some (v, this', tr) =>
      Static.normalizedKernelActivations (centers_ this) (widths_ this) inputs
        (asymmetric_kernels_ this) = Some v
      /\ cache_coherent this' /\ wf (inputs_cached_ this')
      /\ this' = set_cache_ (inputs_cached_ this')
                   (normalized_kernel_activations_cached_ this') this
  end.
Proof.
  intros Hcoh Hwf Hwfc Hne. rewrite normalizedKernelActivations_paths.
  destruct (caching_ this && _ && _) eqn:Hit.
  - apply andb_prop in Hit. destruct Hit as [Hit Hall].
    apply andb_prop in Hit. destruct Hit as [_ Hshape].
    apply andb_prop in Hshape. destruct Hshape as [Hr Hc].
    apply Nat.eqb_eq in Hr, Hc.
    assert (Heq : inputs = inputs_cached_ this).
    { red in Hwf, Hwfc.
      apply array_eq_all_true_iff in Hall; [| rewrite Hwf, Hwfc; congruence].
      destruct inputs, (inputs_cached_ this); simpl in *; congruence. }
    split; [| split; [assumption | split; [assumption |]]].
    + destruct Hcoh as [[He _] | Hs]; [congruence |]. rewrite Heq. exact Hs.
    + destruct this; reflexivity.
  - destruct (Static.normalizedKernelActivations _ _ _ _) as [v |] eqn:Hs;
      [| reflexivity].
    split; [reflexivity |].
    destruct (caching_ this) eqn:Hca.
    + split; [right; exact Hs |]. split; [exact Hwf |]. reflexivity.
    + split; [assumption |]. split; [assumption |]. destruct this; reflexivity.
Qed.

End Cache.

(** ** The class invariant is established and preserved *)

Section Invariant.
Local Open Scope nat_scope.

Lemma constructor_Inv (centers widths slopes offsets : MatrixXd)
    (asym pivot : bool) (this : ModelParametersLWR) :
  wf centers -> wf widths -> wf slopes -> wf offsets ->
  constructor centers widths slopes offsets asym pivot = Some this ->
  Inv this /\ cache_coherent this /\ wf (inputs_cached_ this)
  /\ caching_ this = true.
Proof.
  intros Hc Hw Hs Ho. unfold constructor. cbv zeta.
  cbn [centers_ widths_ slopes_ offsets_].
  destruct (Nat.eqb_spec (rows centers) (rows widths)) as [Hrw |]; [| discriminate].
  destruct (Nat.eqb_spec (cols centers) (cols widths)) as [Hcw |]; [| discriminate].
  destruct (Nat.eqb_spec (rows centers) (rows slopes)) as [Hrs |]; [| discriminate].
  destruct (Nat.eqb_spec (cols centers) (cols slopes)) as [Hcs |]; [| discriminate].
  destruct (Nat.eqb_spec (rows centers) (rows offsets)) as [Hro |]; [| discriminate].
  destruct (Nat.eqb_spec 1 (cols offsets)) as [Hco |]; [| discriminate].
  simpl. intros E. inversion E; subst this; clear E.
  split; [| split; [left; split; reflexivity | split; [reflexivity | reflexivity]]].
  split; [| reflexivity].
  unfold shapes_ok. simpl. repeat split; auto.
Qed.

Lemma set_slopes_as_angles_Inv (b : bool) (this : ModelParametersLWR) :
  Inv this ->
  set_slopes_as_angles b this = Some (tt, this, [cerr 163 ":Not implemented yet!!!"]).
Proof.
  intros [_ Hang]. unfold set_slopes_as_angles, bind, modify, emit. simpl.
  destruct this; simpl in *; subst; reflexivity.
Qed.

Lemma set_lines_pivot_Inv (b : bool) (this : ModelParametersLWR) :
  Inv this -> cache_coherent this ->
  exists this',
    set_lines_pivot_at_max_activation b this = Some (tt, this', [])
    /\ Inv this' /\ cache_coherent this'.
Proof.
  intros HInv Hcoh. rewrite set_lines_pivot_result.
  eexists. split; [reflexivity |].
  destruct (Bool.eqb (lines_pivot_at_max_activation_ this) b);
    [split; assumption |].
  destruct HInv as [(Hc0 & Hw0 & Hs0 & Ho0 & Hsh) Hang0]. split.
  - split; [| exact Hang0].
    unfold shapes_ok. simpl.
    repeat split; try assumption; try apply Hsh.
    + destruct b; apply wf_from_fun.
    + destruct b; apply Hsh.
    + destruct b; apply Hsh.
    + destruct b; apply Hsh.
  - exact Hcoh.
Qed.

Lemma setParameterVectorAll_Inv (values : VectorXd) (this : ModelParametersLWR) :
  Inv this -> cache_coherent this ->
  exists this' tr,
    setParameterVectorAll values this = Some (tt, this', tr)
    /\ Inv this' /\ cache_coherent this'.
Proof.
  intros HInv Hcoh.
  destruct (Nat.eq_dec (length values) (getParameterVectorAllSize this)) as [Hlen | Hne].
  - destruct HInv as [Hshape Hang]. unfold getParameterVectorAllSize in Hlen.
    destruct (setParameterVectorAll_spec values this Hshape Hlen) as (tr & E & _).
    cbv zeta in E. eexists. exists tr. split; [exact E |].
    pose proof Hshape
      as (Hc & Hw & Hs & Ho & Hrw & Hcw & Hrs & Hcs & Hro & Hco & Hsize).
    set (n := rows (centers_ this)) in *. set (d := cols (centers_ this)) in *.
    assert (HN : length values = n * d + n * d + n + n * d).
    { rewrite Hlen, Hsize, Hrw, Hcw, Hrs, Hcs, Hro, Hco. lia. }
    split.
    + split; [| destruct (kernel_block_differs this values); exact Hang].
      assert (Hsh : shapes_ok
                (Build (Matrix n d (segment values 0 (n * d)))
                   (Matrix n d (segment values (n * d) (n * d)))
                   (Matrix n d (segment values (n * d + n * d + n) (n * d)))
                   (Matrix n 1 (segment values (n * d + n * d) n))
                   (asymmetric_kernels_ this) (lines_pivot_at_max_activation_ this)
                   (slopes_as_angles_ this) (all_values_vector_size_ this)
                   (caching_ this) (inputs_cached_ this)
                   (normalized_kernel_activations_cached_ this))).
      { unfold shapes_ok, wf. simpl.
        rewrite !length_segment by lia.
        repeat split; try reflexivity; try lia.
        all: rewrite Hsize, Hrw, Hcw, Hrs, Hcs, Hro, Hco; lia. }
      destruct (kernel_block_differs this values); exact Hsh.
    + destruct (kernel_block_differs this values) eqn:Hk.
      * left. split; reflexivity.
      * unfold kernel_block_differs in Hk. apply negb_false_iff in Hk.
        red in Hc, Hw. rewrite Hrw, Hcw in Hw. fold n d in Hc, Hw.
        apply array_eq_all_true_iff in Hk;
          [| unfold kernel_block; rewrite length_app, length_firstn; fold n d; lia].
        unfold kernel_block in Hk. fold n d in Hk.
        assert (S1 : segment values 0 (n * d) = data (centers_ this)).
        { unfold segment. simpl.
          transitivity (firstn (n * d) (firstn (2 * (n * d)) values)).
          { rewrite take_take. f_equal. lia. }
          rewrite <- Hk. rewrite <- Hc at 1. apply take_app_length. }
        assert (S2 : segment values (n * d) (n * d) = data (widths_ this)).
        { unfold segment.
          transitivity (skipn (n * d) (firstn (2 * (n * d)) values)).
          { rewrite skipn_firstn_comm. f_equal. lia. }
          rewrite <- Hk. rewrite <- Hc at 1. apply drop_app_length. }
        unfold clear_if, cache_coherent. simpl. rewrite S1, S2.
        replace (Matrix n d (data (centers_ this))) with (centers_ this)
          by (subst n d; destruct (centers_ this); reflexivity).
        replace (Matrix n d (data (widths_ this))) with (widths_ this)
          by (subst n d; rewrite <- Hrw, <- Hcw; destruct (widths_ this); reflexivity).
        exact Hcoh.
  - exists this. eexists. split; [| split; assumption].
    apply wrong_size_is_reported. assumption.
Qed.

End Invariant.

(** * Further properties of the code *)

(** ** Construction and the flat vector *)

Section CodecMore.
Local Open Scope nat_scope.

(** X1.  The constructor passes its assertions exactly when widths and
    slopes have the size of the centers and the offsets are one column of
    as many rows; the model it returns holds the arguments, an empty cache
    entry, caching on, the angle flag off, and a flat vector size of
    [n_basis * (3 * n_dims + 1)]. *)
Theorem constructor_checks_sizes (centers widths slopes offsets : MatrixXd)
    (asymmetric_kernels lines_pivot_at_max_activation : bool) :
  let sizes_agree :=
    rows widths = rows centers /\ cols widths = cols centers
    /\ rows slopes = rows centers /\ cols slopes = cols centers
    /\ rows offsets = rows centers /\ cols offsets = 1 in
  match constructor centers widths slopes offsets asymmetric_kernels
          lines_pivot_at_max_activation with
  | Some this =>
      sizes_agree
      /\ this = Build centers widths slopes offsets asymmetric_kernels
                  lines_pivot_at_max_activation false
                  (getParameterVectorAllSize this) true Empty Empty
      /\ getParameterVectorAllSize this = rows centers * (3 * cols centers + 1)
  | None => ~ sizes_agree
  end.
Proof.
  unfold constructor. cbv zeta. cbn [centers_ widths_ slopes_ offsets_].
  destruct (Nat.eqb_spec (rows centers) (rows widths)) as [Hrw |];
    [| simpl; intros H; lia].
  destruct (Nat.eqb_spec (cols centers) (cols widths)) as [Hcw |];
    [| simpl; intros H; lia].
  destruct (Nat.eqb_spec (rows centers) (rows slopes)) as [Hrs |];
    [| simpl; intros H; lia].
  destruct (Nat.eqb_spec (cols centers) (cols slopes)) as [Hcs |];
    [| simpl; intros H; lia].
  destruct (Nat.eqb_spec (rows centers) (rows offsets)) as [Hro |];
    [| simpl; intros H; lia].
  destruct (Nat.eqb_spec 1 (cols offsets)) as [Hco |];
    [| simpl; intros H; lia].
  simpl. split; [lia |]. split; [reflexivity |].
  unfold getParameterVectorAllSize. simpl.
  rewrite <- Hrw, <- Hcw, <- Hrs, <- Hcs, <- Hro, <- Hco. lia.
Qed.

Lemma segment_app_next (v : list R) (a k m : nat) :
  segment v a k ++ segment v (a + k) m = segment v a (k + m).
Proof.
  unfold segment. rewrite (Nat.add_comm a k), <- skipn_skipn.
  apply take_take_drop.
Qed.

Lemma segments_concat (v : list R) (N n : nat) :
  length v = N + N + n + N ->
  segment v 0 N ++ segment v N N ++ segment v (N + N) n
  ++ segment v (N + N + n) N = v.
Proof.
  intros Hlen.
  rewrite (segment_app_next v (N + N) n N).
  rewrite (segment_app_next v N N (n + N)).
  change N with (0 + N) at 2. rewrite (segment_app_next v 0 N (N + (n + N))).
  unfold segment. simpl. apply firstn_all2. lia.
Qed.

(** After [setParameterVectorAll] with a vector of the right length the
    sizes still agree and the flat concatenation of the parameters is the
    vector. *)
Lemma setParameterVectorAll_result (values : VectorXd) (this : ModelParametersLWR) :
  shapes_ok this -> length values = all_values_vector_size_ this ->
  exists this' tr,
    setParameterVectorAll values this = Some (tt, this', tr)
    /\ shapes_ok this'
    /\ flat_parameters this' = values
    /\ all_values_vector_size_ this' = all_values_vector_size_ this
    /\ slopes_as_angles_ this' = slopes_as_angles_ this
    /\ asymmetric_kernels_ this' = asymmetric_kernels_ this
    /\ lines_pivot_at_max_activation_ this' = lines_pivot_at_max_activation_ this
    /\ caching_ this' = caching_ this
    /\ rows (centers_ this') = rows (centers_ this)
    /\ cols (centers_ this') = cols (centers_ this)
    /\ (inputs_cached_ this' = Empty \/ inputs_cached_ this' = inputs_cached_ this).
Proof.
  intros Hshape Hlen.
  destruct (setParameterVectorAll_spec values this Hshape Hlen) as (tr & E & _).
  cbv zeta in E. eexists. exists tr. split; [exact E |].
  destruct Hshape as (Hc & Hw & Hs & Ho & Hrw & Hcw & Hrs & Hcs & Hro & Hco & Hsize).
  set (n := rows (centers_ this)) in *. set (d := cols (centers_ this)) in *.
  assert (HN : length values = n * d + n * d + n + n * d).
  { rewrite Hlen, Hsize, Hrw, Hcw, Hrs, Hcs, Hro, Hco. lia. }
  destruct (kernel_block_differs this values); unfold clear_if; simpl;
    (split; [| split; [apply segments_concat; exact HN |];
               repeat split; auto]);
    unfold shapes_ok, wf; simpl; rewrite !length_segment by lia;
    repeat split; try reflexivity; try lia;
    rewrite Hsize, Hrw, Hcw, Hrs, Hcs, Hro, Hco; lia.
Qed.

(** Writing back the flat concatenation of the current parameters changes
    nothing and clears nothing. *)
Lemma set_flat_parameters_noop (this : ModelParametersLWR) :
  shapes_ok this ->
  setParameterVectorAll (flat_parameters this) this = Some (tt, this, []).
Proof.
  intros Hshape.
  pose proof Hshape
    as (Hc & Hw & Hs & Ho & Hrw & Hcw & Hrs & Hcs & Hro & Hco & Hsize).
  red in Hc, Hw, Hs, Ho. rewrite Hrw, Hcw in Hw. rewrite Hrs, Hcs in Hs.
  rewrite Hro, Hco, Nat.mul_1_r in Ho.
  assert (Hlen : length (flat_parameters this) = all_values_vector_size_ this).
  { unfold flat_parameters. rewrite !length_app, Hc, Hw, Hs, Ho, Hsize.
    rewrite Hrw, Hcw, Hrs, Hcs, Hro, Hco. lia. }
  destruct (setParameterVectorAll_spec _ this Hshape Hlen) as (tr & E & Hcl).
  cbv zeta in E, Hcl.
  assert (Hk : kernel_block_differs this (flat_parameters this) = false).
  { unfold kernel_block_differs, kernel_block, flat_parameters.
    rewrite app_assoc.
    replace (2 * (rows (centers_ this) * cols (centers_ this)))
      with (length (data (centers_ this) ++ data (widths_ this)))
      by (rewrite length_app, Hc, Hw; lia).
    rewrite take_app_length, array_eq_all_refl. reflexivity. }
  rewrite Hk in E, Hcl. apply clears_false_nil in Hcl. subst tr.
  rewrite E. f_equal. f_equal. f_equal. unfold clear_if.
  destruct (flat_segments _ _ _ _ _ _ Hc Hw Ho Hs) as (S1 & S2 & S3 & S4).
  unfold flat_parameters. rewrite S1, S2, S3, S4.
  clear - Hrw Hcw Hrs Hcs Hro Hco.
  destruct this as [[rc cc dc] [rw cw dw] [rs cs ds] [ro co do] ? ? ? ? ? ? ?].
  simpl in *. subst. reflexivity.
Qed.

End CodecMore.

Section CodecExtras.
Local Open Scope nat_scope.

(** X2.  On a model that satisfies the class invariant,
    [getParameterVectorAll] returns a vector of
    [getParameterVectorAllSize()] values laid out column by column:
    [centers(i,j)] at [i + j*n], [widths(i,j)] at [N + i + j*n], offset [i]
    at [2N + i] and [slopes(i,j)] at [2N + n + i + j*n], where [n] is the
    number of basis functions and [N = n * n_dims]. *)
Theorem getParameterVectorAll_layout (this : ModelParametersLWR) :
  Inv this ->
  let n := rows (centers_ this) in
  let N := n * cols (centers_ this) in
  exists values,
    getParameterVectorAll this = Some values
    /\ length values = getParameterVectorAllSize this
    /\ (forall i j, i < n -> j < cols (centers_ this) ->
          nth (i + j * n) values 0%R = coeff (centers_ this) i j
          /\ nth (N + (i + j * n)) values 0%R = coeff (widths_ this) i j
          /\ nth (N + N + n + (i + j * n)) values 0%R = coeff (slopes_ this) i j)
    /\ (forall i, i < n -> nth (N + N + i) values 0%R = coeff (offsets_ this) i 0).
Proof.
  intros HInv n N. exists (flat_parameters this).
  split; [apply getParameterVectorAll_flat; assumption |].
  destruct HInv as [(Hc & Hw & Hs & Ho & Hrw & Hcw & Hrs & Hcs & Hro & Hco & Hsize) _].
  red in Hc, Hw, Hs, Ho. rewrite Hrw, Hcw in Hw. rewrite Hrs, Hcs in Hs.
  rewrite Hro, Hco, Nat.mul_1_r in Ho. fold n N in Hc, Hw, Hs, Ho.
  unfold flat_parameters, getParameterVectorAllSize. split; [| split].
  - rewrite !length_app, Hc, Hw, Hs, Ho, Hsize, Hrw, Hcw, Hrs, Hcs, Hro, Hco.
    fold n N. lia.
  - intros i j Hi Hj. pose proof (index_lt n _ i j Hi Hj) as Hlt. fold N in Hlt.
    unfold coeff. rewrite Hrw, Hrs. fold n. repeat split.
    + rewrite app_nth1 by lia. reflexivity.
    + rewrite <- Hc at 1. rewrite app_nth2_plus, app_nth1 by lia. reflexivity.
    + rewrite <- Hc at 1. rewrite <- Nat.add_assoc, <- Nat.add_assoc, app_nth2_plus.
      rewrite <- Hw at 1. rewrite app_nth2_plus.
      rewrite <- Ho at 1. rewrite app_nth2_plus. reflexivity.
  - intros i Hi. unfold coeff. rewrite Hro. fold n.
    rewrite <- Hc at 1. rewrite <- Nat.add_assoc, app_nth2_plus.
    rewrite <- Hw at 1. rewrite app_nth2_plus, app_nth1 by lia.
    f_equal. lia.
Qed.

Lemma getParameterVectorAll_layout_witness :
  exists values,
    getParameterVectorAll (scenario false false) = Some values
    /\ nth 1 values 0%R = coeff (centers_ (scenario false false)) 1 0
    /\ nth 7 values 0%R = coeff (slopes_ (scenario false false)) 1 0.
Proof.
  destruct (getParameterVectorAll_layout (scenario false false)
              ltac:(repeat split; reflexivity))
    as (values & Hget & _ & Hco & _).
  exists values. split; [exact Hget |].
  destruct (Hco 1 0 ltac:(simpl; lia) ltac:(simpl; lia)) as (H1 & _ & H3).
  split; [exact H1 | exact H3].
Defined.

(** X3.  On a model that satisfies the class invariant,
    [setParameterVectorAll] with a vector of the right length followed by
    [getParameterVectorAll] returns that vector. *)
Theorem set_then_get_parameter_vector (values : VectorXd) (this : ModelParametersLWR) :
  Inv this -> length values = getParameterVectorAllSize this ->
  exists this' tr,
    setParameterVectorAll values this = Some (tt, this', tr)
    /\ getParameterVectorAll this' = Some values.
Proof.
  intros [Hshape Hang] Hlen.
  destruct (setParameterVectorAll_result values this Hshape Hlen)
    as (this' & tr & E & Hshape' & Hflat & _ & Hang' & _).
  exists this', tr. split; [exact E |].
  rewrite <- Hflat. apply getParameterVectorAll_flat.
  split; [assumption | congruence].
Qed.

Lemma set_then_get_parameter_vector_witness :
  exists this' tr,
    setParameterVectorAll [1; 9; 3; 4; 5; 6; 7; 8]%R (scenario false false)
    = Some (tt, this', tr)
    /\ getParameterVectorAll this' = Some [1; 9; 3; 4; 5; 6; 7; 8]%R.
Proof.
  apply (set_then_get_parameter_vector [1; 9; 3; 4; 5; 6; 7; 8]%R
           (scenario false false)).
  - repeat split; reflexivity.
  - reflexivity.
Defined.

(** X4.  [setParameterVectorAll] is idempotent: a second call with the same
    vector leaves the state of the first call as it is and does not call
    [clearCache()], so a cache entry filled in between survives. *)
Theorem setParameterVectorAll_twice (values : VectorXd) (this : ModelParametersLWR) :
  shapes_ok this -> length values = getParameterVectorAllSize this ->
  exists this' tr,
    setParameterVectorAll values this = Some (tt, this', tr)
    /\ setParameterVectorAll values this' = Some (tt, this', [])
    /\ forall inputs nka,
         setParameterVectorAll values (set_cache_ inputs nka this')
         = Some (tt, set_cache_ inputs nka this', []).
Proof.
  intros Hshape Hlen.
  destruct (setParameterVectorAll_result values this Hshape Hlen)
    as (this' & tr & E & Hshape' & Hflat & _).
  exists this', tr. split; [exact E |]. split.
  - rewrite <- Hflat at 1. apply set_flat_parameters_noop. assumption.
  - intros inputs nka.
    replace values with (flat_parameters (set_cache_ inputs nka this')) at 1
      by exact Hflat.
    apply set_flat_parameters_noop. exact Hshape'.
Qed.

Lemma setParameterVectorAll_twice_witness :
  exists this' tr,
    setParameterVectorAll [1; 9; 3; 4; 5; 6; 7; 8]%R (scenario false false)
    = Some (tt, this', tr)
    /\ setParameterVectorAll [1; 9; 3; 4; 5; 6; 7; 8]%R this' = Some (tt, this', []).
Proof.
  destruct (setParameterVectorAll_twice [1; 9; 3; 4; 5; 6; 7; 8]%R
              (scenario false false) ltac:(repeat split; reflexivity) eq_refl)
    as (this' & tr & E1 & E2 & _).
  exists this', tr. split; [exact E1 | exact E2].
Defined.

End CodecExtras.

(** ** The cache in use *)

Section CacheExtras.

Lemma normalizedKernelActivations_again (inputs : MatrixXd)
    (this this' : ModelParametersLWR) (v : MatrixXd) (tr : list Event) :
  normalizedKernelActivations inputs this = Some (v, this', tr) ->
  (caching_ this = true ->
     normalizedKernelActivations inputs this' = Some (v, this', []))
  /\ (caching_ this = false ->
      this' = this /\ tr = [call_normalizedKernelActivations inputs]
      /\ Static.normalizedKernelActivations (centers_ this) (widths_ this) inputs
           (asymmetric_kernels_ this) = Some v).
Proof.
  rewrite normalizedKernelActivations_paths. intros H. split.
  - intros Hca. rewrite Hca in H. simpl andb in H.
    destruct ((rows inputs =? rows (inputs_cached_ this))
              && (cols inputs =? cols (inputs_cached_ this))
              && array_eq_all (data inputs) (data (inputs_cached_ this))) eqn:Hit.
    + inversion H; subst. rewrite normalizedKernelActivations_paths, Hca.
      simpl andb. rewrite Hit. reflexivity.
    + destruct (Static.normalizedKernelActivations _ _ _ _) as [v0 |];
        [| discriminate].
      inversion H; subst. rewrite normalizedKernelActivations_paths.
      simpl. rewrite Hca, !Nat.eqb_refl, array_eq_all_refl. reflexivity.
  - intros Hca. rewrite Hca in H. simpl in H.
    destruct (Static.normalizedKernelActivations _ _ _ _) as [v0 |];
      [| discriminate].
    inversion H; subst. repeat split.
Qed.

(** X5.  With caching on, a call of [normalizedKernelActivations] that
    follows a call with the same inputs returns the same matrix without
    calling the static routine and leaves the state as it is; with caching
    off a call leaves the state as it is and always calls the static
    routine. *)
Theorem normalizedKernelActivations_repeated_call (inputs : MatrixXd)
    (this this' : ModelParametersLWR) (v : MatrixXd) (tr : list Event) :
  normalizedKernelActivations inputs this = Some (v, this', tr) ->
  (caching_ this = true ->
     normalizedKernelActivations inputs this' = Some (v, this', []))
  /\ (caching_ this = false ->
      this' = this /\ tr = [call_normalizedKernelActivations inputs]
      /\ Static.normalizedKernelActivations (centers_ this) (widths_ this) inputs
           (asymmetric_kernels_ this) = Some v).
Proof. apply normalizedKernelActivations_again. Qed.

Lemma normalizedKernelActivations_repeated_call_witness :
  normalizedKernelActivations scenario_inputs single_basis
  = Some (Matrix 2 1 [1; 1]%R,
          set_cache_ scenario_inputs (Matrix 2 1 [1; 1]%R) single_basis,
          [call_normalizedKernelActivations scenario_inputs])
  /\ normalizedKernelActivations scenario_inputs
       (set_cache_ scenario_inputs (Matrix 2 1 [1; 1]%R) single_basis)
     = Some (Matrix 2 1 [1; 1]%R,
             set_cache_ scenario_inputs (Matrix 2 1 [1; 1]%R) single_basis, []).
Proof.
  split; [reflexivity |].
  apply (proj1 (normalizedKernelActivations_repeated_call scenario_inputs
                  single_basis _ _ _ eq_refl)).
  reflexivity.
Defined.

(** X6.  The cache is never stale after [setParameterVectorAll]: on a model
    that satisfies the class invariant and whose cache entry is coherent, a
    call of [normalizedKernelActivations] on a non-empty batch that follows
    [setParameterVectorAll] returns what the static routine computes from
    the new centers and widths, and fails only where the static routine
    fails. *)
Theorem cache_not_stale_after_setParameterVectorAll (values : VectorXd)
    (inputs : MatrixXd) (this : ModelParametersLWR) :
  Inv this -> cache_coherent this -> wf (inputs_cached_ this) ->
  wf inputs -> inputs <> Empty ->
  exists this1 tr1,
    setParameterVectorAll values this = Some (tt, this1, tr1)
    /\ match normalizedKernelActivations inputs this1 with
       | None =>
           Static.normalizedKernelActivations (centers_ this1) (widths_ this1)
             inputs (asymmetric_kernels_ this1) = None
       | Some (v, _, _) =>
           Static.normalizedKernelActivations (centers_ this1) (widths_ this1)
             inputs (asymmetric_kernels_ this1) = Some v
       end.
Proof.
  intros HInv Hcoh Hwfc Hwf Hne.
  destruct (setParameterVectorAll_Inv values this HInv Hcoh)
    as (this1 & tr1 & E & HInv1 & Hcoh1).
  exists this1, tr1. split; [exact E |].
  assert (Hwfc1 : wf (inputs_cached_ this1)).
  { destruct (Nat.eq_dec (length values) (getParameterVectorAllSize this))
      as [Hlen | Hlen].
    - destruct (setParameterVectorAll_result values this (proj1 HInv) Hlen)
        as (this2 & tr2 & E2 & _ & _ & _ & _ & _ & _ & _ & _ & _ & Hc).
      rewrite E in E2. inversion E2; subst this2.
      destruct Hc as [-> | ->]; [reflexivity | assumption].
    - rewrite (wrong_size_is_reported values this Hlen) in E.
      inversion E; subst. assumption. }
  pose proof (normalizedKernelActivations_cache_transparent inputs this1
                Hcoh1 Hwf Hwfc1 Hne) as H.
  destruct (normalizedKernelActivations inputs this1) as [[[v t] r] |];
    [apply H | exact H].
Qed.

Lemma cache_not_stale_after_setParameterVectorAll_witness :
  exists this1 tr1,
    setParameterVectorAll [1; 9; 3; 4; 5; 6; 7; 8]%R (scenario false false)
    = Some (tt, this1, tr1)
    /\ match normalizedKernelActivations scenario_inputs this1 with
       | None =>
           Static.normalizedKernelActivations (centers_ this1) (widths_ this1)
             scenario_inputs (asymmetric_kernels_ this1) = None
       | Some (v, _, _) =>
           Static.normalizedKernelActivations (centers_ this1) (widths_ this1)
             scenario_inputs (asymmetric_kernels_ this1) = Some v
       end.
Proof.
  apply (cache_not_stale_after_setParameterVectorAll
           [1; 9; 3; 4; 5; 6; 7; 8]%R scenario_inputs (scenario false false)).
  - repeat split; reflexivity.
  - left. split; reflexivity.
  - reflexivity.
  - reflexivity.
  - discriminate.
Defined.

(** X7.  Evaluation changes nothing but the cache entry:
    [locallyWeightedLines] returns the row sums of the lines weighted by
    the matrix [normalizedKernelActivations] returns, and both leave
    centers, widths, slopes, offsets, the flags and the size as they are;
    with caching off the whole state is unchanged. *)
Theorem locallyWeightedLines_changes_cache_only (inputs : MatrixXd)
    (this this' : ModelParametersLWR) (output : MatrixXd) (tr : list Event) :
  locallyWeightedLines inputs this = Some (output, this', tr) ->
  exists activations,
    normalizedKernelActivations inputs this = Some (activations, this', tr)
    /\ output = rowwise_sum (cwiseProduct (getLines this inputs) activations)
    /\ this' = set_cache_ (inputs_cached_ this')
                 (normalized_kernel_activations_cached_ this') this
    /\ (caching_ this = false -> this' = this).
Proof.
  unfold locallyWeightedLines. rewrite bind_get. unfold bind, ret.
  destruct (normalizedKernelActivations inputs this) as [[[a t] r] |] eqn:E;
    [| discriminate].
  intros H. inversion H; subst; clear H. rewrite app_nil_r.
  exists a. split; [reflexivity |]. split; [reflexivity |].
  rewrite normalizedKernelActivations_paths in E.
  destruct (caching_ this && _ && _) eqn:Hit.
  - inversion E; subst. split; [destruct this'; reflexivity | reflexivity].
  - destruct (Static.normalizedKernelActivations _ _ _ _) as [v0 |];
      [| discriminate].
    inversion E; subst. destruct (caching_ this) eqn:Hca.
    + split; [reflexivity | discriminate].
    + split; [destruct this; reflexivity | reflexivity].
Qed.

Lemma locallyWeightedLines_changes_cache_only_witness :
  locallyWeightedLines scenario_inputs single_basis
  = Some (rowwise_sum (cwiseProduct (getLines single_basis scenario_inputs)
                         (Matrix 2 1 [1; 1]%R)),
          set_cache_ scenario_inputs (Matrix 2 1 [1; 1]%R) single_basis,
          [call_normalizedKernelActivations scenario_inputs])
  /\ exists activations,
       normalizedKernelActivations scenario_inputs single_basis
       = Some (activations,
               set_cache_ scenario_inputs (Matrix 2 1 [1; 1]%R) single_basis,
               [call_normalizedKernelActivations scenario_inputs]).
Proof.
  split; [reflexivity |].
  destruct (locallyWeightedLines_changes_cache_only scenario_inputs
              single_basis _ _ _ eq_refl) as (a & Ha & _).
  exists a. exact Ha.
Defined.

End CacheExtras.

(** ** The lines *)

Section LinesExtras.
Local Open Scope R_scope.

Lemma matrix_ext (a b : MatrixXd) :
  wf a -> wf b -> rows a = rows b -> cols a = cols b ->
  (forall i j, (i < rows a)%nat -> (j < cols a)%nat -> coeff a i j = coeff b i j) ->
  a = b.
Proof.
  intros Ha Hb Hr Hc H.
  rewrite <- (from_fun_coeff a Ha), <- (from_fun_coeff b Hb), <- Hr, <- Hc.
  apply from_fun_ext. assumption.
Qed.

Lemma coeff_transpose (m : MatrixXd) (i j : nat) :
  (i < cols m)%nat -> (j < rows m)%nat -> coeff (transpose m) i j = coeff m j i.
Proof.
  intros Hi Hj. unfold transpose. rewrite coeff_from_fun by assumption.
  reflexivity.
Qed.

Lemma coeff_replicate_row (m : MatrixXd) (r s b : nat) :
  rows m = 1%nat -> (s < r)%nat -> (b < cols m)%nat ->
  coeff (replicate m r 1) s b = coeff m 0 b.
Proof.
  intros Hr Hs Hb. unfold replicate.
  rewrite coeff_from_fun by (rewrite ?Hr; lia).
  rewrite Hr, Nat.mod_1_r, Nat.mod_small by lia. reflexivity.
Qed.

Lemma getLines_shape (this : ModelParametersLWR) (inputs : MatrixXd) :
  wf (getLines this inputs)
  /\ rows (getLines this inputs) = rows inputs
  /\ cols (getLines this inputs) = rows (slopes_ this).
Proof.
  unfold getLines. cbv zeta.
  destruct (lines_pivot_at_max_activation_ this); repeat split; apply wf_from_fun.
Qed.

(** A coefficient of [getLines]: the product of the inputs by the
    transposed slopes, plus the offset, minus [ac] when the lines pivot at
    the maximum activation. *)
Lemma getLines_coeff (this : ModelParametersLWR) (inputs : MatrixXd) (s b : nat) :
  shapes_ok this -> (s < rows inputs)%nat -> (b < rows (centers_ this))%nat ->
  coeff (getLines this inputs) s b =
    sum (map (fun k => coeff inputs s k * coeff (transpose (slopes_ this)) k b)
           (seq 0 (cols inputs)))
    + coeff (offsets_ this) b 0
    - (if lines_pivot_at_max_activation_ this then ac_of this b else 0).
Proof.
  intros (_ & _ & _ & _ & _ & _ & Hrs & Hcs & Hro & Hco & _) Hs Hb.
  assert (Hbase :
    coeff (add (mul inputs (transpose (slopes_ this)))
             (replicate (transpose (offsets_ this)) (rows inputs) 1)) s b
    = sum (map (fun k => coeff inputs s k * coeff (transpose (slopes_ this)) k b)
             (seq 0 (cols inputs)))
      + coeff (offsets_ this) b 0).
  { unfold add. simpl rows. simpl cols.
    rewrite coeff_from_fun by lia.
    unfold mul at 1. rewrite coeff_from_fun by (simpl; lia).
    rewrite coeff_replicate_row by (simpl; lia).
    rewrite coeff_transpose by lia. reflexivity. }
  unfold getLines. cbv zeta.
  destruct (lines_pivot_at_max_activation_ this).
  - unfold sub. simpl rows. simpl cols. rewrite coeff_from_fun by lia.
    rewrite Hbase.
    destruct (slopes_times_centers_nth this b Hcs Hb) as [Hlen Hnth].
    rewrite coeff_replicate_row by (simpl; lia).
    rewrite coeff_transpose by (simpl; lia).
    rewrite coeff_of_vector, Hnth. reflexivity.
  - rewrite Hbase. ring.
Qed.

Lemma getLines_coeff_by_dims (this : ModelParametersLWR) (inputs : MatrixXd)
    (s b : nat) :
  shapes_ok this -> cols inputs = cols (centers_ this) ->
  (s < rows inputs)%nat -> (b < rows (centers_ this))%nat ->
  coeff (getLines this inputs) s b =
    if lines_pivot_at_max_activation_ this
    then sum (map (fun d => coeff (slopes_ this) b d
                            * (coeff inputs s d - coeff (centers_ this) b d))
                (seq 0 (cols (centers_ this))))
         + coeff (offsets_ this) b 0
    else sum (map (fun d => coeff inputs s d * coeff (slopes_ this) b d)
                (seq 0 (cols (centers_ this))))
         + coeff (offsets_ this) b 0.
Proof.
  intros Hshape Hci Hs Hb.
  pose proof Hshape as (_ & _ & _ & _ & _ & _ & Hrs & Hcs & _).
  rewrite (getLines_coeff this inputs s b Hshape Hs Hb), Hci.
  assert (Hbase :
    map (fun k => coeff inputs s k * coeff (transpose (slopes_ this)) k b)
      (seq 0 (cols (centers_ this)))
    = map (fun d => coeff inputs s d * coeff (slopes_ this) b d)
        (seq 0 (cols (centers_ this)))).
  { apply map_ext_in. intros d Hd. apply in_seq in Hd.
    rewrite coeff_transpose by lia. reflexivity. }
  rewrite Hbase.
  destruct (lines_pivot_at_max_activation_ this); [| ring].
  unfold ac_of. generalize (seq 0 (cols (centers_ this))). intros l.
  assert (Hsplit :
    sum (map (fun d => coeff (slopes_ this) b d
                       * (coeff inputs s d - coeff (centers_ this) b d)) l)
    = sum (map (fun d => coeff inputs s d * coeff (slopes_ this) b d) l)
      - sum (map (fun d => coeff (slopes_ this) b d * coeff (centers_ this) b d) l)).
  { induction l as [| d l IH]; simpl; [ring | rewrite IH; ring]. }
  rewrite Hsplit. ring.
Qed.

(** X8.  For inputs of [n_dims] columns, on a model whose sizes agree,
    [getLines] returns one row per sample and one column per basis
    function, and line [b] at sample [s] is
    [sum_d inputs(s,d)*slopes(b,d) + offsets(b)], less
    [sum_d slopes(b,d)*centers(b,d)] when the lines pivot at the maximum
    activation, that is [sum_d slopes(b,d)*(inputs(s,d)-centers(b,d)) +
    offsets(b)]. *)
Theorem getLines_formula (this : ModelParametersLWR) (inputs : MatrixXd) :
  shapes_ok this -> cols inputs = cols (centers_ this) ->
  rows (getLines this inputs) = rows inputs
  /\ cols (getLines this inputs) = rows (centers_ this)
  /\ forall s b, (s < rows inputs)%nat -> (b < rows (centers_ this))%nat ->
       coeff (getLines this inputs) s b =
         if lines_pivot_at_max_activation_ this
         then sum (map (fun d => coeff (slopes_ this) b d
                                 * (coeff inputs s d - coeff (centers_ this) b d))
                     (seq 0 (cols (centers_ this))))
              + coeff (offsets_ this) b 0
         else sum (map (fun d => coeff inputs s d * coeff (slopes_ this) b d)
                     (seq 0 (cols (centers_ this))))
              + coeff (offsets_ this) b 0.
Proof.
  intros Hshape Hci.
  pose proof Hshape as (_ & _ & _ & _ & _ & _ & Hrs & Hcs & _).
  destruct (getLines_shape this inputs) as (_ & Hr & Hc).
  split; [exact Hr |]. split; [congruence |].
  intros s b Hs Hb. apply getLines_coeff_by_dims; assumption.
Qed.

Lemma getLines_formula_witness :
  coeff (getLines (scenario false true) scenario_inputs) 1 1
  = sum (map (fun d => coeff (slopes_ (scenario false true)) 1 d
                       * (coeff scenario_inputs 1 d
                          - coeff (centers_ (scenario false true)) 1 d))
           (seq 0 1))
    + coeff (offsets_ (scenario false true)) 1 0.
Proof.
  destruct (getLines_formula (scenario false true) scenario_inputs
              ltac:(repeat split; reflexivity) eq_refl) as (_ & _ & H).
  apply (H 1%nat 1%nat); simpl; lia.
Defined.

Lemma getLines_after_pivot (new_value : bool) (this : ModelParametersLWR) :
  shapes_ok this ->
  exists this',
    set_lines_pivot_at_max_activation new_value this = Some (tt, this', [])
    /\ forall inputs, getLines this' inputs = getLines this inputs.
Proof.
  intros Hshape. rewrite set_lines_pivot_result. eexists. split; [reflexivity |].
  intros inputs.
  destruct (Bool.eqb (lines_pivot_at_max_activation_ this) new_value) eqn:Hflag;
    [reflexivity |].
  apply Bool.eqb_false_iff in Hflag.
  set (this' := set_lines_pivot_ new_value _).
  pose proof Hshape as (Hc & Hw & Hs & Ho & Hrw & Hcw & Hrs & Hcs & Hro & Hco & Hsz).
  assert (Hshape' : shapes_ok this').
  { subst this'. unfold shapes_ok. simpl.
    repeat split; try assumption;
      destruct new_value; (apply wf_from_fun || assumption). }
  destruct (getLines_shape this inputs) as (Hwf1 & Hr1 & Hc1).
  destruct (getLines_shape this' inputs) as (Hwf2 & Hr2 & Hc2).
  apply matrix_ext; try assumption; [congruence | rewrite Hc2, Hc1; reflexivity |].
  intros s b Hsr Hbc. rewrite Hr2 in Hsr. rewrite Hc2 in Hbc.
  change (slopes_ this') with (slopes_ this) in Hbc. rewrite Hrs in Hbc.
  rewrite (getLines_coeff this' inputs s b Hshape' Hsr Hbc).
  rewrite (getLines_coeff this inputs s b Hshape Hsr Hbc).
  change (slopes_ this') with (slopes_ this).
  change (ac_of this' b) with (ac_of this b).
  change (lines_pivot_at_max_activation_ this') with new_value.
  destruct (slopes_times_centers_nth this b Hcs Hbc) as [_ Hnth].
  subst this'. cbn [offsets_ set_lines_pivot_ set_offsets_].
  destruct new_value, (lines_pivot_at_max_activation_ this);
    try congruence.
  - unfold add. rewrite coeff_from_fun by lia.
    rewrite coeff_of_vector, Hnth. ring.
  - unfold sub. rewrite coeff_from_fun by lia.
    rewrite coeff_of_vector, Hnth. ring.
Qed.

(** X9.  The pivot flag is a change of representation only: on a model
    whose sizes agree, [getLines] returns after
    [set_lines_pivot_at_max_activation] what it returned before, for either
    value of the flag and on every input batch. *)
Theorem getLines_unchanged_by_pivot (new_value : bool) (this : ModelParametersLWR) :
  shapes_ok this ->
  exists this',
    set_lines_pivot_at_max_activation new_value this = Some (tt, this', [])
    /\ forall inputs, getLines this' inputs = getLines this inputs.
Proof. apply getLines_after_pivot. Qed.

Lemma getLines_unchanged_by_pivot_witness :
  exists this',
    set_lines_pivot_at_max_activation true (scenario false false)
    = Some (tt, this', [])
    /\ getLines this' scenario_inputs
       = getLines (scenario false false) scenario_inputs.
Proof.
  destruct (getLines_unchanged_by_pivot true (scenario false false)
              ltac:(repeat split; reflexivity)) as (this' & E & H).
  exists this'. split; [exact E | apply H].
Defined.

End LinesExtras.

(** ** Activations as weights *)

Section WeightsExtras.
Local Open Scope R_scope.







(** The static [normalizedKernelActivations] returns positive weights that
    sum to one on every row, for one basis function as for several. *)
Lemma normalized_weights (centers widths inputs : MatrixXd) (asym : bool) :
  (0 < rows centers)%nat ->
  rows widths = rows centers -> cols widths = cols centers ->
  cols inputs = cols centers ->
  exists v,
    Static.normalizedKernelActivations centers widths inputs asym = Some v
    /\ wf v /\ rows v = rows inputs /\ cols v = rows centers
    /\ forall s, (s < rows inputs)%nat ->
         (forall b, (b < rows centers)%nat -> 0 < coeff v s b)
         /\ sum (map (coeff v s) (seq 0 (rows centers))) = 1.
Proof.
  intros Hn Hrw Hcw Hci.
  destruct (Nat.eq_dec (rows centers) 1%nat) as [H1 | Hne].
  - unfold Static.normalizedKernelActivations. cbv zeta.
    rewrite H1. simpl Nat.eqb. cbv iota.
    eexists. split; [reflexivity |]. simpl.
    split; [red; simpl; apply repeat_length |].
    split; [reflexivity |]. split; [reflexivity |].
    intros s Hs.
    assert (Hone : forall b, (b < 1)%nat ->
               coeff (fill (resize (rows inputs) 1) 1) s b = 1).
    { intros b Hb. unfold coeff, fill; simpl. apply nth_repeat_lt. lia. }
    split.
    + intros b Hb. rewrite Hone by assumption. lra.
    + simpl. rewrite Hone by lia. ring.
  - destruct (normalized_closed_form centers widths inputs asym Hrw Hcw Hci
                ltac:(lia))
      as (ka & _ & Hr & Hc & Hco & Hsum & _ & Hnorm & Hq).
    eexists. split; [exact Hnorm |].
    split; [apply wf_from_fun |]. simpl.
    split; [assumption |]. split; [assumption |].
    intros s Hs. split.
    + intros b Hb. rewrite (Hq s b Hs Hb).
      apply Rdiv_lt_0_compat; [| apply Hsum; assumption].
      rewrite Hco by assumption. apply gaussian_product_pos.
    + rewrite map_ext_in with (g := fun b => coeff ka s b / sum (row ka s)).
      * rewrite sum_map_div.
        replace (map (coeff ka s) (seq 0 (rows centers))) with (row ka s)
          by (unfold row; rewrite Hc; reflexivity).
        apply Rdiv_diag. specialize (Hsum s Hs). lra.
      * intros b Hb. apply in_seq in Hb. apply Hq; lia.
Qed.

Lemma sum_ge_member (f : nat -> R) (l : list nat) (b : nat) :
  (forall x, In x l -> 0 <= f x) -> In b l -> f b <= sum (map f l).
Proof.
  induction l as [| x l IH]; intros Hpos Hin; [destruct Hin |].
  simpl.
  assert (Hnn : forall k : list nat, (forall y, In y k -> 0 <= f y) ->
                0 <= sum (map f k)).
  { induction k as [| y k IHk]; intros Hk; simpl; [lra |].
    assert (0 <= f y) by (apply Hk; left; reflexivity).
    assert (0 <= sum (map f k)) by (apply IHk; intros; apply Hk; right; assumption).
    lra. }
  assert (0 <= f x) by (apply Hpos; left; reflexivity).
  assert (0 <= sum (map f l)) by (apply Hnn; intros; apply Hpos; right; assumption).
  destruct Hin as [-> | Hin]; [lra |].
  assert (f b <= sum (map f l)) by (apply IH; [intros; apply Hpos; right |]; assumption).
  lra.
Qed.

(** X11.  With at least one basis function and sizes that agree, every
    normalized activation lies in (0, 1]. *)
Theorem normalizedKernelActivations_bounds (centers widths inputs : MatrixXd)
    (asymmetric_kernels : bool) :
  (0 < rows centers)%nat ->
  rows widths = rows centers -> cols widths = cols centers ->
  cols inputs = cols centers ->
  exists normalized,
    Static.normalizedKernelActivations centers widths inputs asymmetric_kernels
      = Some normalized
    /\ forall s b, (s < rows inputs)%nat -> (b < rows centers)%nat ->
         0 < coeff normalized s b <= 1.
Proof.
  intros Hn Hrw Hcw Hci.
  destruct (normalized_weights centers widths inputs asymmetric_kernels
              Hn Hrw Hcw Hci) as (v & Hv & _ & _ & _ & Hw).
  exists v. split; [exact Hv |].
  intros s b Hs Hb. destruct (Hw s Hs) as [Hpos Hsum].
  split; [apply Hpos; assumption |].
  rewrite <- Hsum. apply (sum_ge_member (coeff v s)).
  - intros x Hx. apply in_seq in Hx. left. apply Hpos. lia.
  - apply in_seq. lia.
Qed.

Lemma normalizedKernelActivations_bounds_witness :
  exists normalized,
    Static.normalizedKernelActivations (centers_ (scenario false false))
      (widths_ (scenario false false)) scenario_inputs false = Some normalized
    /\ 0 < coeff normalized 1 0 <= 1.
Proof.
  destruct (normalizedKernelActivations_bounds (centers_ (scenario false false))
              (widths_ (scenario false false)) scenario_inputs false
              ltac:(simpl; lia) eq_refl eq_refl eq_refl) as (v & Hv & H).
  exists v. split; [exact Hv |]. apply H; simpl; lia.
Defined.

End WeightsExtras.

(** ** The blend *)

Section BlendExtras.
Local Open Scope R_scope.







(** X14.  The static [kernelActivations] fails exactly when its assertions
    on the sizes fail; the static [normalizedKernelActivations] fails
    exactly then too, except with a single basis function, where it returns
    ones without looking at the widths or the inputs' columns. *)
Theorem static_routines_fail_on_sizes (centers widths inputs : MatrixXd)
    (asymmetric_kernels : bool) :
  let sizes_agree :=
    rows widths = rows centers /\ cols widths = cols centers
    /\ cols inputs = cols centers in
  (Static.kernelActivations centers widths inputs asymmetric_kernels = None
   <-> ~ sizes_agree)
  /\ (Static.normalizedKernelActivations centers widths inputs asymmetric_kernels
      = None
      <-> rows centers <> 1%nat /\ ~ sizes_agree).
Proof.
  intros sizes_agree.
  assert (Hdec : sizes_agree \/ ~ sizes_agree).
  { subst sizes_agree.
    destruct (Nat.eq_dec (rows widths) (rows centers));
      destruct (Nat.eq_dec (cols widths) (cols centers));
      destruct (Nat.eq_dec (cols inputs) (cols centers)); tauto. }
  assert (Hk : Static.kernelActivations centers widths inputs asymmetric_kernels
               = None <-> ~ sizes_agree).
  { destruct Hdec as [(Hrw & Hcw & Hci) | Hn].
    - destruct (kernelActivations_closed_form centers widths inputs
                  asymmetric_kernels Hrw Hcw Hci) as (ka & Hka & _).
      rewrite Hka. split; [discriminate |].
      intros Hn. exfalso. apply Hn. repeat split; assumption.
    - split; [intros _; exact Hn |]. intros _.
      unfold Static.kernelActivations. cbv zeta.
      rewrite Nat.eqb_refl. simpl andb.
      destruct (Nat.eqb_spec (rows centers) (rows widths)) as [Hrw |];
        [| reflexivity].
      destruct (Nat.eqb_spec (cols centers) (cols widths)) as [Hcw |];
        [| reflexivity].
      destruct (Nat.eqb_spec (cols centers) (cols inputs)) as [Hci |];
        [| reflexivity].
      exfalso. apply Hn. subst sizes_agree. repeat split; congruence. }
  split; [exact Hk |].
  unfold Static.normalizedKernelActivations. cbv zeta.
  destruct (Nat.eqb_spec (rows centers) 1) as [H1 | H1].
  - split; [discriminate | intros [Hne _]; contradiction].
  - destruct (Static.kernelActivations centers widths inputs asymmetric_kernels)
      as [ka |] eqn:Hka.
    + split; [discriminate |]. intros [_ Hn]. apply Hk in Hn. discriminate.
    + split; [| reflexivity]. intros _. split; [assumption |].
      apply Hk. reflexivity.
Qed.

End BlendExtras.

(** ** The mask, the modifiers and the clone *)

Section MaskExtras.
Local Open Scope nat_scope.

Lemma fill_segment_app (A C B : list Z) (x : Z) :
  fill_segment (A ++ C ++ B) (length A) (length C) x
  = A ++ repeat x (length C) ++ B.
Proof.
  unfold fill_segment.
  rewrite take_app_length. f_equal. f_equal.
  rewrite app_assoc, <- length_app. apply drop_app_length.
Qed.

Lemma mask_block (sel : bool) (A B : list Z) (k : nat) (x : Z) :
  (if sel then fill_segment (A ++ repeat 0%Z k ++ B) (length A) k x
   else A ++ repeat 0%Z k ++ B)
  = A ++ repeat (if sel then x else 0%Z) k ++ B.
Proof.
  destruct sel; [| reflexivity].
  pose proof (fill_segment_app A (repeat 0%Z k) B x) as H.
  rewrite repeat_length in H. exact H.
Qed.

(** The mask in closed form: one block per group of parameters, in the
    order of the flat vector. *)
Lemma getParameterVectorMask_blocks (this : ModelParametersLWR)
    (labels : gset string) :
  shapes_ok this ->
  let n := rows (centers_ this) in
  let N := n * cols (centers_ this) in
  getParameterVectorMask this labels
  = Some (repeat (if bool_decide ("centers" ∈ labels) then 1%Z else 0%Z) N
          ++ repeat (if bool_decide ("widths" ∈ labels) then 2%Z else 0%Z) N
          ++ repeat (if bool_decide ("offsets" ∈ labels) then 3%Z else 0%Z) n
          ++ repeat (if bool_decide ("slopes" ∈ labels) then 4%Z else 0%Z) N).
Proof.
  intros (_ & _ & _ & _ & Hrw & Hcw & Hrs & Hcs & Hro & Hco & Hsize) n N.
  unfold getParameterVectorMask, getParameterVectorAllSize. cbv zeta.
  rewrite Hsize, Hrw, Hcw, Hrs, Hcs, Hro, Hco, Nat.mul_1_r. fold n N.
  rewrite Nat.add_0_l, Nat.eqb_refl.
  rewrite <- !Nat.add_assoc, !repeat_app.
  pose proof (mask_block (bool_decide ("centers" ∈ labels)) []
                (repeat 0%Z N ++ repeat 0%Z n ++ repeat 0%Z N) N 1%Z) as H1.
  simpl app in H1. simpl length in H1. rewrite H1. clear H1.
  set (b1 := repeat (if bool_decide ("centers" ∈ labels) then 1%Z else 0%Z) N).
  pose proof (mask_block (bool_decide ("widths" ∈ labels)) b1
                (repeat 0%Z n ++ repeat 0%Z N) N 2%Z) as H2.
  replace (length b1) with N in H2 by (subst b1; rewrite repeat_length; reflexivity).
  rewrite H2. clear H2.
  set (b2 := repeat (if bool_decide ("widths" ∈ labels) then 2%Z else 0%Z) N).
  pose proof (mask_block (bool_decide ("offsets" ∈ labels)) (b1 ++ b2)
                (repeat 0%Z N) n 3%Z) as H3.
  replace (length (b1 ++ b2)) with (N + N) in H3
    by (subst b1 b2; rewrite length_app, !repeat_length; reflexivity).
  rewrite <- !app_assoc in H3. rewrite H3. clear H3.
  set (b3 := repeat (if bool_decide ("offsets" ∈ labels) then 3%Z else 0%Z) n).
  pose proof (mask_block (bool_decide ("slopes" ∈ labels)) (b1 ++ b2 ++ b3)
                [] N 4%Z) as H4.
  replace (length (b1 ++ b2 ++ b3)) with (N + (N + n)) in H4
    by (subst b1 b2 b3; rewrite !length_app, !repeat_length; reflexivity).
  rewrite !app_nil_r, <- !app_assoc in H4. rewrite H4.
  reflexivity.
Qed.

End MaskExtras.

Section MaskClaims.
Local Open Scope nat_scope.

(** X15.  On a model whose sizes agree, [getParameterVectorMask] passes its
    assertion and returns one integer per value of the flat vector, in the
    layout of [getParameterVectorAll]: 1 on the centers block, 2 on the
    widths block, 3 on the offsets block and 4 on the slopes block when the
    block's label is selected, and 0 on a block whose label is not. *)
Theorem getParameterVectorMask_layout (this : ModelParametersLWR)
    (labels : gset string) :
  shapes_ok this ->
  let n := rows (centers_ this) in
  let N := n * cols (centers_ this) in
  exists mask,
    getParameterVectorMask this labels = Some mask
    /\ length mask = getParameterVectorAllSize this
    /\ forall k,
         (k < N ->
          nth k mask 0%Z = if bool_decide ("centers" ∈ labels) then 1%Z else 0%Z)
         /\ (k < N ->
             nth (N + k) mask 0%Z
             = if bool_decide ("widths" ∈ labels) then 2%Z else 0%Z)
         /\ (k < n ->
             nth (N + N + k) mask 0%Z
             = if bool_decide ("offsets" ∈ labels) then 3%Z else 0%Z)
         /\ (k < N ->
             nth (N + N + n + k) mask 0%Z
             = if bool_decide ("slopes" ∈ labels) then 4%Z else 0%Z).
Proof.
  intros Hshape n N.
  rewrite (getParameterVectorMask_blocks this labels Hshape). fold n N.
  eexists. split; [reflexivity |].
  destruct Hshape as (_ & _ & _ & _ & Hrw & Hcw & Hrs & Hcs & Hro & Hco & Hsize).
  split.
  - rewrite !length_app, !repeat_length. unfold getParameterVectorAllSize.
    rewrite Hsize, Hrw, Hcw, Hrs, Hcs, Hro, Hco. fold n N. lia.
  - intros k.
    set (b1 := repeat (if bool_decide ("centers" ∈ labels) then 1%Z else 0%Z) N).
    set (b2 := repeat (if bool_decide ("widths" ∈ labels) then 2%Z else 0%Z) N).
    set (b3 := repeat (if bool_decide ("offsets" ∈ labels) then 3%Z else 0%Z) n).
    assert (L1 : length b1 = N) by apply repeat_length.
    assert (L2 : length b2 = N) by apply repeat_length.
    assert (L3 : length b3 = n) by apply repeat_length.
    repeat split; intros Hk.
    + rewrite app_nth1 by lia. apply nth_repeat_lt. assumption.
    + rewrite <- L1 at 1. rewrite app_nth2_plus, app_nth1 by lia.
      apply nth_repeat_lt. assumption.
    + rewrite <- L1 at 1. rewrite <- Nat.add_assoc, app_nth2_plus.
      rewrite <- L2 at 1. rewrite app_nth2_plus, app_nth1 by lia.
      apply nth_repeat_lt. assumption.
    + rewrite <- L1 at 1. rewrite <- !Nat.add_assoc, app_nth2_plus.
      rewrite <- L2 at 1. rewrite app_nth2_plus.
      rewrite <- L3 at 1. rewrite app_nth2_plus.
      apply nth_repeat_lt. assumption.
Qed.

Lemma getParameterVectorMask_layout_witness :
  exists mask,
    getParameterVectorMask (scenario false false) {[ "widths" ]} = Some mask
    /\ length mask = 8
    /\ nth 1 mask 0%Z = 0%Z /\ nth 3 mask 0%Z = 2%Z.
Proof.
  destruct (getParameterVectorMask_layout (scenario false false) {[ "widths" ]}
              ltac:(repeat split; reflexivity)) as (mask & E & Hlen & H).
  exists mask. split; [exact E |]. split; [exact Hlen |].
  destruct (H 1) as (H1 & H2 & _). split.
  - rewrite H1 by (simpl; lia). reflexivity.
  - apply (H2 ltac:(simpl; lia)).
Defined.

Lemma selectable_labels :
  "centers" ∈ getSelectableParameters /\ "widths" ∈ getSelectableParameters
  /\ "offsets" ∈ getSelectableParameters /\ "slopes" ∈ getSelectableParameters.
Proof.
  unfold getSelectableParameters. repeat split.
Qed.

(** X16.  Labels that are not selectable parameters are ignored by
    [getParameterVectorMask], and with every label of
    [getSelectableParameters] selected no entry of the mask is 0. *)
Theorem getParameterVectorMask_selectable (this : ModelParametersLWR)
    (labels : gset string) :
  shapes_ok this ->
  getParameterVectorMask this labels
  = getParameterVectorMask this (labels ∩ getSelectableParameters)
  /\ exists mask,
       getParameterVectorMask this getSelectableParameters = Some mask
       /\ forall k, k < length mask -> nth k mask 0%Z <> 0%Z.
Proof.
  intros Hshape. split.
  - rewrite !(getParameterVectorMask_blocks this _ Hshape).
    assert (Hsel : forall l, l ∈ getSelectableParameters ->
              bool_decide (l ∈ labels ∩ getSelectableParameters)
              = bool_decide (l ∈ labels)).
    { intros l Hl. apply bool_decide_ext. rewrite elem_of_intersection. tauto. }
    destruct selectable_labels as (Hc & Hw & Ho & Hs).
    rewrite (Hsel _ Hc), (Hsel _ Hw), (Hsel _ Ho), (Hsel _ Hs).
    reflexivity.
  - rewrite (getParameterVectorMask_blocks this _ Hshape).
    eexists. split; [reflexivity |].
    destruct selectable_labels as (Hc & Hw & Ho & Hs).
    rewrite !bool_decide_eq_true_2 by assumption.
    intros k Hk Hz.
    assert (Hin : In (nth k
              (repeat 1%Z (rows (centers_ this) * cols (centers_ this))
               ++ repeat 2%Z (rows (centers_ this) * cols (centers_ this))
               ++ repeat 3%Z (rows (centers_ this))
               ++ repeat 4%Z (rows (centers_ this) * cols (centers_ this))) 0%Z)
              (repeat 1%Z (rows (centers_ this) * cols (centers_ this))
               ++ repeat 2%Z (rows (centers_ this) * cols (centers_ this))
               ++ repeat 3%Z (rows (centers_ this))
               ++ repeat 4%Z (rows (centers_ this) * cols (centers_ this))))
      by (apply nth_In; exact Hk).
    rewrite Hz in Hin.
    repeat (apply in_app_or in Hin; destruct Hin as [Hin | Hin]);
      pose proof (repeat_spec _ _ _ Hin) as Hx; discriminate.
Qed.

Lemma getParameterVectorMask_selectable_witness :
  getParameterVectorMask (scenario false false) {[ "widths"; "heights" ]}
  = getParameterVectorMask (scenario false false)
      ({[ "widths"; "heights" ]} ∩ getSelectableParameters).
Proof.
  apply (proj1 (getParameterVectorMask_selectable (scenario false false)
                  {[ "widths"; "heights" ]} ltac:(repeat split; reflexivity))).
Defined.

(** X17.  The angle representation cannot be switched on:
    [set_slopes_as_angles], whatever its argument, writes one line to
    [std::cerr], leaves the flag off and everything else as it is, so
    [getParameterVectorAll] goes on returning the slopes themselves. *)
Theorem set_slopes_as_angles_stays_off (slopes_as_angles : bool)
    (this : ModelParametersLWR) :
  shapes_ok this ->
  exists this',
    set_slopes_as_angles slopes_as_angles this
    = Some (tt, this', [cerr 163 ":Not implemented yet!!!"])
    /\ this' = set_slopes_as_angles_ false this
    /\ slopes_as_angles_ this' = false
    /\ getParameterVectorAll this' = Some (flat_parameters this).
Proof.
  intros Hshape. exists (set_slopes_as_angles_ false this).
  split; [reflexivity |]. split; [reflexivity |]. split; [reflexivity |].
  change (flat_parameters this)
    with (flat_parameters (set_slopes_as_angles_ false this)).
  apply getParameterVectorAll_flat. split; [exact Hshape | reflexivity].
Qed.

Lemma set_slopes_as_angles_stays_off_witness :
  exists this',
    set_slopes_as_angles true (scenario false false)
    = Some (tt, this', [cerr 163 ":Not implemented yet!!!"])
    /\ slopes_as_angles_ this' = false
    /\ getParameterVectorAll this' = Some (flat_parameters (scenario false false)).
Proof.
  destruct (set_slopes_as_angles_stays_off true (scenario false false)
              ltac:(repeat split; reflexivity)) as (this' & E & _ & Hf & Hg).
  exists this'. split; [exact E |]. split; assumption.
Defined.

(** X18.  [setParameterVectorModifierPrivate] dispatches on the name: the
    two known modifiers run their setter, and any other name is ignored
    without a message: the state is unchanged and nothing is written. *)
Theorem setParameterVectorModifierPrivate_dispatch (modifier : string)
    (new_value : bool) (this : ModelParametersLWR) :
  (modifier = "lines_pivot_at_max_activation" ->
     setParameterVectorModifierPrivate modifier new_value this
     = set_lines_pivot_at_max_activation new_value this)
  /\ (modifier = "slopes_as_angles" ->
      setParameterVectorModifierPrivate modifier new_value this
      = set_slopes_as_angles new_value this)
  /\ (modifier <> "lines_pivot_at_max_activation" ->
      modifier <> "slopes_as_angles" ->
      setParameterVectorModifierPrivate modifier new_value this
      = Some (tt, this, [])).
Proof.
  unfold setParameterVectorModifierPrivate. repeat split.
  - intros ->. simpl. unfold bind. rewrite set_lines_pivot_result.
    reflexivity.
  - intros ->. simpl. rewrite bind_ret. reflexivity.
  - intros H1 H2.
    apply String.eqb_neq in H1, H2. rewrite H1, H2. reflexivity.
Qed.

Lemma setParameterVectorModifierPrivate_dispatch_witness :
  setParameterVectorModifierPrivate "slopes_as_degrees" true (scenario false false)
  = Some (tt, scenario false false, []).
Proof.
  apply (proj2 (proj2 (setParameterVectorModifierPrivate_dispatch
                         "slopes_as_degrees" true (scenario false false)))).
  - discriminate.
  - discriminate.
Defined.

(** The model [clone()] returns. *)
Lemma clone_result (this : ModelParametersLWR) :
  shapes_ok this ->
  clone this
  = Some (Build (centers_ this) (widths_ this) (slopes_ this) (offsets_ this)
            (asymmetric_kernels_ this) (lines_pivot_at_max_activation_ this)
            false (all_values_vector_size_ this) true Empty Empty).
Proof.
  intros (_ & _ & _ & _ & Hrw & Hcw & Hrs & Hcs & Hro & Hco & Hsize).
  unfold clone, constructor. cbv zeta. simpl.
  rewrite Hrw, Hcw, Hrs, Hcs, Hro, Hco, !Nat.eqb_refl. simpl.
  unfold set_all_values_vector_size_. simpl. rewrite Hsize.
  rewrite Hrw, Hcw, Hrs, Hcs, Hro, Hco. reflexivity.
Qed.

(** X19.  A clone evaluates like the original and does not depend on the
    original's cache: [getLines] and [kernelActivations] agree on every
    input batch, the clone of a model is the clone of the same model with
    any other cache entry, the clone satisfies the class invariant when the
    original does, and cloning a clone returns an equal model. *)
Theorem clone_evaluates_like_original (this : ModelParametersLWR) :
  Inv this ->
  exists c,
    clone this = Some c
    /\ Inv c /\ cache_coherent c
    /\ clone c = Some c
    /\ (forall inputs nka, clone (set_cache_ inputs nka this) = Some c)
    /\ forall inputs,
         getLines c inputs = getLines this inputs
         /\ kernelActivations c inputs = kernelActivations this inputs.
Proof.
  intros [Hshape Hang]. rewrite (clone_result this Hshape).
  eexists. split; [reflexivity |].
  assert (Hshape' : shapes_ok
            (Build (centers_ this) (widths_ this) (slopes_ this) (offsets_ this)
               (asymmetric_kernels_ this) (lines_pivot_at_max_activation_ this)
               false (all_values_vector_size_ this) true Empty Empty))
    by exact Hshape.
  split; [split; [exact Hshape' | reflexivity] |].
  split; [left; split; reflexivity |].
  split; [apply (clone_result _ Hshape') |].
  split.
  - intros inputs nka.
    apply (clone_result (set_cache_ inputs nka this) Hshape).
  - intros inputs. split; reflexivity.
Qed.

Lemma clone_evaluates_like_original_witness :
  exists c,
    clone (scenario true true) = Some c
    /\ clone c = Some c
    /\ getLines c scenario_inputs = getLines (scenario true true) scenario_inputs.
Proof.
  destruct (clone_evaluates_like_original (scenario true true)
              ltac:(repeat split; reflexivity))
    as (c & E & _ & _ & Ec & _ & H).
  exists c. split; [exact E |]. split; [exact Ec | apply H].
Defined.

End MaskClaims.

(** ** The grid export *)

Section GridExtras.
Local Open Scope R_scope.

Lemma length_LinSpaced (size : nat) (low high : R) :
  length (LinSpaced size low high) = size.
Proof.
  unfold LinSpaced. destruct (Nat.eqb_spec size 1) as [-> | _]; [reflexivity |].
  rewrite length_map, length_seq. reflexivity.
Qed.

Lemma mul_index_lt (n1 n2 ii jj : nat) :
  (ii < n1)%nat -> (jj < n2)%nat -> (ii * n2 + jj < n1 * n2)%nat.
Proof.
  intros Hi Hj. pose proof (index_lt n2 n1 jj ii Hj Hi). lia.
Qed.

(** The inner loop of the two-dimensional grid writes the rows
    [ii*n2 .. ii*n2+m-1] and leaves the others as they are. *)
Lemma grid_inner_loop (x1 x2 : list R) (n1 ii m : nat) (inputs : MatrixXd) :
  wf inputs -> rows inputs = (n1 * length x2)%nat -> cols inputs = 2%nat ->
  (ii < n1)%nat -> (m <= length x2)%nat ->
  let inputs' :=
    for_loop m (fun jj inputs =>
      let inputs := set_coeff inputs (ii * length x2 + jj) 0 (nth ii x1 0) in
      set_coeff inputs (ii * length x2 + jj) 1 (nth jj x2 0)) inputs in
  wf inputs' /\ rows inputs' = rows inputs /\ cols inputs' = cols inputs
  /\ (forall jj, (jj < m)%nat ->
        coeff inputs' (ii * length x2 + jj) 0 = nth ii x1 0
        /\ coeff inputs' (ii * length x2 + jj) 1 = nth jj x2 0)
  /\ (forall r c, (r < rows inputs)%nat ->
        (r < ii * length x2 \/ ii * length x2 + m <= r)%nat ->
        coeff inputs' r c = coeff inputs r c).
Proof.
  intros Hwf Hr Hc Hii. induction m as [| m IH]; intros Hm; cbv zeta.
  - rewrite for_loop_0. repeat split; try assumption; intros; lia.
  - rewrite for_loop_S. cbv beta zeta.
    destruct IH as (Hwf' & Hr' & Hc' & Hset & Hkeep); [lia |].
    set (M := for_loop m _ inputs) in *.
    pose proof (mul_index_lt n1 (length x2) ii m Hii ltac:(lia)) as Hlt.
    set (k := (ii * length x2 + m)%nat) in *.
    set (M1 := set_coeff M k 0 (nth ii x1 0)).
    assert (Hwf1 : wf M1) by (apply wf_set_coeff; assumption).
    split; [apply wf_set_coeff; assumption |].
    split; [assumption |]. split; [assumption |].
    assert (Hco : forall r c, (r < rows inputs)%nat ->
              coeff (set_coeff M1 k 1 (nth m x2 0)) r c =
                if (r =? k)%nat && (c =? 1)%nat then nth m x2 0
                else if (r =? k)%nat && (c =? 0)%nat then nth ii x1 0
                else coeff M r c).
    { intros r c Hrr.
      rewrite coeff_set_coeff by (try assumption; simpl; lia).
      destruct ((r =? k)%nat && (c =? 1)%nat); [reflexivity |].
      subst M1. rewrite coeff_set_coeff by (try assumption; lia).
      reflexivity. }
    split.
    + intros jj Hjj. rewrite !Hco by (subst k; pose proof
        (mul_index_lt n1 (length x2) ii jj Hii ltac:(lia)); lia).
      destruct (Nat.eq_dec jj m) as [-> | Hne].
      * fold k. rewrite Nat.eqb_refl. simpl. split; reflexivity.
      * replace (ii * length x2 + jj =? k)%nat with false
          by (symmetry; apply Nat.eqb_neq; subst k; lia).
        simpl. apply Hset. lia.
    + intros r c Hrr Hout. rewrite Hco by assumption.
      replace (r =? k)%nat with false
        by (symmetry; apply Nat.eqb_neq; subst k; lia).
      simpl. apply Hkeep; [assumption | subst k; lia].
Qed.

(** The outer loop of the two-dimensional grid. *)
Lemma grid_outer_loop (x1 x2 : list R) (n1 k : nat) (inputs : MatrixXd) :
  wf inputs -> rows inputs = (n1 * length x2)%nat -> cols inputs = 2%nat ->
  (k <= n1)%nat ->
  let inputs' :=
    for_loop k (fun ii inputs =>
      for_loop (length x2) (fun jj inputs =>
        let inputs := set_coeff inputs (ii * length x2 + jj) 0 (nth ii x1 0) in
        set_coeff inputs (ii * length x2 + jj) 1 (nth jj x2 0)) inputs) inputs in
  wf inputs' /\ rows inputs' = rows inputs /\ cols inputs' = cols inputs
  /\ forall ii jj, (ii < k)%nat -> (jj < length x2)%nat ->
       coeff inputs' (ii * length x2 + jj) 0 = nth ii x1 0
       /\ coeff inputs' (ii * length x2 + jj) 1 = nth jj x2 0.
Proof.
  intros Hwf Hr Hc. induction k as [| k IH]; intros Hk; cbv zeta.
  - rewrite for_loop_0. repeat split; try assumption; intros; lia.
  - rewrite for_loop_S. cbv beta zeta.
    destruct IH as (Hwf' & Hr' & Hc' & Hset); [lia |].
    set (M := for_loop k _ inputs) in *.
    destruct (grid_inner_loop x1 x2 n1 k (length x2) M Hwf' (eq_trans Hr' Hr)
                (eq_trans Hc' Hc) Hk (le_n _))
      as (Hwf2 & Hr2 & Hc2 & Hnew & Hkeep).
    cbv zeta in Hwf2, Hr2, Hc2, Hnew, Hkeep.
    split; [exact Hwf2 |].
    split; [exact (eq_trans Hr2 Hr') |]. split; [exact (eq_trans Hc2 Hc') |].
    intros ii jj Hii Hjj.
    destruct (Nat.eq_dec ii k) as [-> | Hne]; [apply Hnew; assumption |].
    assert (Hlt : (ii * length x2 + jj < k * length x2)%nat).
    { assert (Datatypes.S ii * length x2 <= k * length x2)%nat
        by (apply Nat.mul_le_mono_r; lia). simpl in *. lia. }
    rewrite !Hkeep.
    + apply Hset; [lia | assumption].
    + rewrite Hr', Hr. pose proof (mul_index_lt n1 (length x2) ii jj ltac:(lia) Hjj).
      lia.
    + left. assumption.
    + rewrite Hr', Hr. pose proof (mul_index_lt n1 (length x2) ii jj ltac:(lia) Hjj).
      lia.
    + left. assumption.
Qed.

(** X20.  The grid of [saveGridData] for two dimensions has one row per
    pair of a value of the first axis and a value of the second, two
    columns, and row [ii*n2 + jj] holds the [ii]-th value of the first axis
    and the [jj]-th value of the second; for one dimension it is the axis
    as a single column; for any other number of dimensions it is the empty
    0 x 0 matrix. *)
Theorem grid_inputs_layout (min max : VectorXd) (n_samples_per_dim : list nat) :
  let n1 := nth 0 n_samples_per_dim 0%nat in
  let n2 := nth 1 n_samples_per_dim 0%nat in
  let x1 := LinSpaced n1 (nth 0 min 0) (nth 0 max 0) in
  let x2 := LinSpaced n2 (nth 1 min 0) (nth 1 max 0) in
  (length min = 1%nat ->
     grid_inputs min max n_samples_per_dim = Matrix n1 1 x1)
  /\ (length min = 2%nat ->
      wf (grid_inputs min max n_samples_per_dim)
      /\ rows (grid_inputs min max n_samples_per_dim) = (n1 * n2)%nat
      /\ cols (grid_inputs min max n_samples_per_dim) = 2%nat
      /\ forall ii jj, (ii < n1)%nat -> (jj < n2)%nat ->
           coeff (grid_inputs min max n_samples_per_dim) (ii * n2 + jj) 0
           = nth ii x1 0
           /\ coeff (grid_inputs min max n_samples_per_dim) (ii * n2 + jj) 1
              = nth jj x2 0)
  /\ (length min <> 1%nat -> length min <> 2%nat ->
      grid_inputs min max n_samples_per_dim = Empty).
Proof.
  intros n1 n2 x1 x2. unfold grid_inputs. cbv zeta. fold n1 n2 x1 x2.
  assert (L1 : length x1 = n1) by apply length_LinSpaced.
  assert (L2 : length x2 = n2) by apply length_LinSpaced.
  split; [| split].
  - intros ->. simpl. unfold of_vector. rewrite L1. reflexivity.
  - intros ->. simpl Nat.eqb. cbv iota.
    destruct (grid_outer_loop x1 x2 n1 (length x1)
                (Matrix (n1 * n2) 2 (repeat 0 (n1 * n2 * 2))))
      as (Hwf & Hr & Hc & Hset).
    + red. simpl. apply repeat_length.
    + simpl. rewrite L2. reflexivity.
    + reflexivity.
    + lia.
    + cbv zeta in Hwf, Hr, Hc, Hset. rewrite L2 in *. rewrite L1 in *.
      split; [exact Hwf |]. split; [exact Hr |]. split; [exact Hc |].
      exact Hset.
  - intros H1 H2. apply Nat.eqb_neq in H1, H2. rewrite H1, H2. reflexivity.
Qed.

Lemma grid_inputs_layout_witness :
  rows (grid_inputs [0; 0] [1; 2] [3; 4]%nat) = 12%nat
  /\ coeff (grid_inputs [0; 0] [1; 2] [3; 4]%nat) (2 * 4 + 3) 1
     = nth 3 (LinSpaced 4 0 2) 0
  /\ grid_inputs [0; 0; 0] [1; 2; 3] [3; 4; 5]%nat = Empty.
Proof.
  destruct (grid_inputs_layout [0; 0] [1; 2] [3; 4]%nat) as (_ & H2 & _).
  destruct (H2 eq_refl) as (_ & Hr & _ & Hco).
  split; [exact Hr |]. split.
  - apply (Hco 2%nat 3%nat); simpl; lia.
  - apply (proj2 (proj2 (grid_inputs_layout [0; 0; 0] [1; 2; 3] [3; 4; 5]%nat)));
      simpl; lia.
Defined.

End GridExtras.

Section ExportExtras.

Lemma locallyWeightedLines_unfold (inputs : MatrixXd) (this : ModelParametersLWR) :
  locallyWeightedLines inputs this =
    match normalizedKernelActivations inputs this with
    | None => None
    | Some (a, this', tr) =>
        Some (rowwise_sum (cwiseProduct (getLines this inputs) a), this', tr)
    end.
Proof.
  unfold locallyWeightedLines. rewrite bind_get. unfold bind, ret.
  destruct (normalizedKernelActivations inputs this) as [[[a t] r] |];
    [| reflexivity].
  rewrite app_nil_r. reflexivity.
Qed.

(** X21.  [saveGridData] returns [true] at once, without evaluating or
    saving anything, when the directory name is empty.  Otherwise, when it
    returns, it returns [true], the sizes of [min], [max] and
    [n_samples_per_dim] agree, the state differs from the one before in the
    cache entry at most, and six matrices have been handed to [saveMatrix]
    in a fixed order with the directory and the overwrite flag given; the
    saved weighted lines are the saved lines weighted by the saved
    normalized activations; and with caching on the static
    [normalizedKernelActivations] has run at most once, the second
    evaluation being served from the cache. *)
Theorem saveGridData_exports (min max : VectorXd) (n_samples_per_dim : list nat)
    (save_directory : string) (overwrite : bool) (this : ModelParametersLWR) :
  saveGridData min max n_samples_per_dim "" overwrite this = Some (true, this, [])
  /\ (save_directory <> "" ->
      match saveGridData min max n_samples_per_dim save_directory overwrite this with
      | None => True
      | Some (result, this', tr) =>
          let inputs := grid_inputs min max n_samples_per_dim in
          result = true
          /\ length min = length max /\ length min = length n_samples_per_dim
          /\ this' = set_cache_ (inputs_cached_ this')
                       (normalized_kernel_activations_cached_ this') this
          /\ exists tr_methods activations normalized,
               tr = map method_event tr_methods
                    ++ [call_saveMatrix_int save_directory "n_samples_per_dim.txt"
                          n_samples_per_dim overwrite;
                        call_saveMatrix save_directory "inputs_grid.txt"
                          inputs overwrite;
                        call_saveMatrix save_directory "lines.txt"
                          (getLines this inputs) overwrite;
                        call_saveMatrix save_directory "weighted_lines.txt"
                          (rowwise_sum (cwiseProduct (getLines this inputs) normalized))
                          overwrite;
                        call_saveMatrix save_directory "activations.txt"
                          activations overwrite;
                        call_saveMatrix save_directory "activations_normalized.txt"
                          normalized overwrite]
               /\ kernelActivations this inputs = Some activations
               /\ (caching_ this = true ->
                   tr_methods = []
                   \/ tr_methods = [call_normalizedKernelActivations inputs])
      end).
Proof.
  split; [reflexivity |].
  intros Hdir. unfold saveGridData.
  replace (String.eqb save_directory "") with false
    by (symmetry; apply String.eqb_neq; assumption).
  cbv zeta.
  destruct (Nat.eqb_spec (length min) (length max)) as [Hmax |]; [| exact I].
  destruct (Nat.eqb_spec (length min) (length n_samples_per_dim)) as [Hn |];
    [| exact I].
  simpl negb. cbv iota.
  set (inputs := grid_inputs min max n_samples_per_dim).
  rewrite locallyWeightedLines_unfold.
  destruct (normalizedKernelActivations inputs this) as [[[v this1] tr1] |] eqn:E1;
    [| exact I].
  destruct (kernelActivations this1 inputs) as [ka |] eqn:Eka; [| exact I].
  destruct (normalizedKernelActivations inputs this1) as [[[v2 this2] tr2] |] eqn:E2;
    [| exact I].
  destruct (normalizedKernelActivations_again inputs this this1 v tr1 E1)
    as [Hon Hoff].
  pose proof E1 as Hpaths. rewrite normalizedKernelActivations_paths in Hpaths.
  assert (Hstate : this1 = set_cache_ (inputs_cached_ this1)
                             (normalized_kernel_activations_cached_ this1) this
                   /\ (caching_ this = true ->
                       tr1 = [] \/ tr1 = [call_normalizedKernelActivations inputs])).
  { destruct (caching_ this && _ && _).
    - inversion Hpaths; subst. split; [destruct this1; reflexivity | auto].
    - destruct (Static.normalizedKernelActivations _ _ _ _) as [v0 |];
        [| discriminate].
      inversion Hpaths; subst. split; [| auto].
      destruct (caching_ this); [reflexivity | destruct this; reflexivity]. }
  destruct Hstate as [Hs1 Htr1].
  assert (Hsame : v2 = v /\ this2 = this1
                  /\ (caching_ this = true -> tr2 = [])).
  { destruct (caching_ this) eqn:Hca.
    - rewrite (Hon eq_refl) in E2. inversion E2; subst. auto.
    - destruct (Hoff eq_refl) as (-> & _ & _). rewrite E1 in E2.
      inversion E2; subst. repeat split. discriminate. }
  destruct Hsame as (-> & -> & Htr2).
  split; [reflexivity |]. split; [assumption |]. split; [assumption |].
  split; [exact Hs1 |].
  exists (tr1 ++ tr2), ka, v. split; [reflexivity |]. split.
  - rewrite <- Eka, Hs1. reflexivity.
  - intros Hca. rewrite (Htr2 Hca), app_nil_r. apply Htr1. assumption.
Qed.

Lemma saveGridData_exports_witness :
  match saveGridData [0%R] [5%R] [3] "grid" true single_basis with
  | None => True
  | Some (result, this', tr) =>
      result = true
      /\ this' = set_cache_ (inputs_cached_ this')
                   (normalized_kernel_activations_cached_ this') single_basis
  end.
Proof.
  pose proof (proj2 (saveGridData_exports [0%R] [5%R] [3] "grid" true single_basis)
                ltac:(discriminate)) as H.
  destruct (saveGridData [0%R] [5%R] [3] "grid" true single_basis)
    as [[[result this'] tr] |]; [| exact I].
  destruct H as (Hr & _ & _ & Hs & _). split; assumption.
Defined.

End ExportExtras.

(** ** Invariants across the methods *)

Section InvariantExtras.
Local Open Scope R_scope.

(** X22.  The class invariant with a coherent cache entry is established
    by the constructor on well-formed matrices and kept by every method
    that changes the state: [setParameterVectorAll] (with a vector of any
    length), [set_lines_pivot_at_max_activation], [set_slopes_as_angles]
    and [normalizedKernelActivations]. *)
Theorem class_invariant_kept (this : ModelParametersLWR) :
  let good := fun t : ModelParametersLWR =>
    Inv t /\ cache_coherent t /\ wf (inputs_cached_ t) in
  (forall centers widths slopes offsets a p,
     wf centers -> wf widths -> wf slopes -> wf offsets ->
     constructor centers widths slopes offsets a p = Some this -> good this)
  /\ (good this ->
      (forall values this' tr,
         setParameterVectorAll values this = Some (tt, this', tr) -> good this')
      /\ (forall b this' tr,
            set_lines_pivot_at_max_activation b this = Some (tt, this', tr) ->
            good this')
      /\ (forall b this' tr,
            set_slopes_as_angles b this = Some (tt, this', tr) -> good this')
      /\ (forall inputs v this' tr,
            wf inputs ->
            normalizedKernelActivations inputs this = Some (v, this', tr) ->
            good this')).
Proof.
  intros good. split.
  - intros c w s o a p Hc Hw Hs Ho E.
    destruct (constructor_Inv c w s o a p this Hc Hw Hs Ho E) as (H1 & H2 & H3 & _).
    split; [assumption | split; assumption].
  - intros (HInv & Hcoh & Hwfc). split; [| split; [| split]].
    + intros values this' tr H.
      destruct (setParameterVectorAll_Inv values this HInv Hcoh)
        as (t & r & E & H1 & H2).
      rewrite E in H. inversion H; subst t r; clear H.
      split; [assumption |]. split; [assumption |].
      destruct (Nat.eq_dec (length values) (getParameterVectorAllSize this))
        as [Hlen | Hlen].
      * destruct (setParameterVectorAll_result values this (proj1 HInv) Hlen)
          as (t & r & E' & _ & _ & _ & _ & _ & _ & _ & _ & _ & Hc).
        rewrite E in E'. inversion E'; subst t r.
        destruct Hc as [-> | ->]; [reflexivity | assumption].
      * rewrite (wrong_size_is_reported values this Hlen) in E.
        inversion E; subst. assumption.
    + intros b this' tr H.
      destruct (set_lines_pivot_Inv b this HInv Hcoh) as (t & E & H1 & H2).
      rewrite E in H. inversion H; subst t tr; clear H.
      split; [assumption |]. split; [assumption |].
      rewrite set_lines_pivot_result in E. inversion E; subst this'.
      destruct (Bool.eqb _ _); assumption.
    + intros b this' tr H.
      rewrite (set_slopes_as_angles_Inv b this HInv) in H.
      inversion H; subst. split; [assumption | split; assumption].
    + intros inputs v this' tr Hwf H.
      rewrite normalizedKernelActivations_paths in H.
      destruct (caching_ this && _ && _).
      * inversion H; subst. split; [assumption | split; assumption].
      * destruct (Static.normalizedKernelActivations _ _ _ _) eqn:Es;
          [| discriminate].
        inversion H; subst. destruct (caching_ this).
        -- split; [exact HInv |]. split; [right; exact Es | exact Hwf].
        -- split; [assumption | split; assumption].
Qed.

Lemma class_invariant_kept_witness :
  Inv (scenario false false)
  /\ cache_coherent (scenario false false)
  /\ wf (inputs_cached_ (scenario false false)).
Proof.
  apply (proj1 (proj2 (proj2 (proj2 (class_invariant_kept (scenario false false))
           ltac:(split; [repeat split; reflexivity
                        | split; [left; split; reflexivity | reflexivity]]))))
           true (scenario false false) [cerr 163 ":Not implemented yet!!!"]).
  reflexivity.
Defined.

(** X23.  The prediction does not depend on the pivot flag: on a model
    whose sizes agree, [locallyWeightedLines] returns after
    [set_lines_pivot_at_max_activation] the output it returned before, with
    the same calls, and fails where it failed before. *)
Theorem locallyWeightedLines_unchanged_by_pivot (new_value : bool)
    (this : ModelParametersLWR) :
  shapes_ok this ->
  exists this',
    set_lines_pivot_at_max_activation new_value this = Some (tt, this', [])
    /\ forall inputs,
         match locallyWeightedLines inputs this,
               locallyWeightedLines inputs this' with
         | Some (output, _, tr), Some (output', _, tr') =>
             output' = output /\ tr' = tr
         | None, None => True
         | _, _ => False
         end.
Proof.
  intros Hshape.
  destruct (getLines_after_pivot new_value this Hshape) as (this' & E & Hlines).
  assert (Hf : caching_ this' = caching_ this
               /\ inputs_cached_ this' = inputs_cached_ this
               /\ normalized_kernel_activations_cached_ this'
                  = normalized_kernel_activations_cached_ this
               /\ centers_ this' = centers_ this /\ widths_ this' = widths_ this
               /\ asymmetric_kernels_ this' = asymmetric_kernels_ this).
  { pose proof E as E'. rewrite set_lines_pivot_result in E'.
    inversion E' as [Hthis']. destruct (Bool.eqb _ _); repeat split. }
  exists this'. split; [exact E |].
  intros inputs. rewrite !locallyWeightedLines_unfold, (Hlines inputs).
  rewrite !normalizedKernelActivations_paths.
  destruct Hf as (-> & -> & -> & -> & -> & ->).
  destruct (caching_ this && _ && _); [split; reflexivity |].
  destruct (Static.normalizedKernelActivations _ _ _ _); [| exact I].
  split; reflexivity.
Qed.

Lemma locallyWeightedLines_unchanged_by_pivot_witness :
  exists this',
    set_lines_pivot_at_max_activation true (scenario false false)
    = Some (tt, this', [])
    /\ match locallyWeightedLines scenario_inputs (scenario false false),
             locallyWeightedLines scenario_inputs this' with
       | Some (output, _, tr), Some (output', _, tr') =>
           output' = output /\ tr' = tr
       | None, None => True
       | _, _ => False
       end.
Proof.
  destruct (locallyWeightedLines_unchanged_by_pivot true (scenario false false)
              ltac:(repeat split; reflexivity)) as (this' & E & H).
  exists this'. split; [exact E | apply H].
Defined.

(** X24.  What the asymmetry flag does not change: the activation of basis
    function [b] at sample [s] is the same with asymmetric as with
    symmetric kernels when [b] is the first basis function, when the
    sample is not below the center in any dimension, or when the previous
    basis function has the same width in every dimension. *)
Theorem asymmetric_kernels_where_symmetric (centers widths inputs : MatrixXd) :
  rows widths = rows centers -> cols widths = cols centers ->
  cols inputs = cols centers ->
  exists asymmetric symmetric,
    Static.kernelActivations centers widths inputs true = Some asymmetric
    /\ Static.kernelActivations centers widths inputs false = Some symmetric
    /\ forall s b, (s < rows inputs)%nat -> (b < rows centers)%nat ->
         (b = 0%nat
          \/ (forall d, (d < cols centers)%nat ->
                ~ coeff inputs s d < coeff centers b d)
          \/ (forall d, (d < cols centers)%nat ->
                coeff widths (b - 1) d = coeff widths b d)) ->
         coeff asymmetric s b = coeff symmetric s b.
Proof.
  intros Hrw Hcw Hci.
  destruct (kernelActivations_closed_form centers widths inputs true Hrw Hcw Hci)
    as (ka & Hka & _ & _ & _ & Hco).
  destruct (kernelActivations_closed_form centers widths inputs false Hrw Hcw Hci)
    as (ks & Hks & _ & _ & _ & Hcs).
  exists ka, ks. split; [exact Hka |]. split; [exact Hks |].
  intros s b Hs Hb Hcase. rewrite (Hco s b Hs Hb), (Hcs s b Hs Hb).
  unfold gaussian_product. f_equal. apply map_ext_in. intros d Hd.
  apply in_seq in Hd. do 3 f_equal.
  unfold effective_width, Rltb. simpl andb.
  destruct (Rlt_dec (coeff inputs s d) (coeff centers b d)) as [Hlt | _];
    [| reflexivity].
  destruct (Nat.ltb_spec 0 b) as [Hpos | _]; [| reflexivity].
  destruct Hcase as [-> | [Hnot | Heq]].
  - lia.
  - exfalso. apply (Hnot d); [lia | assumption].
  - apply Heq. lia.
Qed.

Lemma asymmetric_kernels_where_symmetric_witness :
  exists asymmetric symmetric,
    Static.kernelActivations (centers_ (scenario true false))
      (widths_ (scenario true false)) scenario_inputs true = Some asymmetric
    /\ Static.kernelActivations (centers_ (scenario true false))
         (widths_ (scenario true false)) scenario_inputs false = Some symmetric
    /\ coeff asymmetric 1 0 = coeff symmetric 1 0.
Proof.
  destruct (asymmetric_kernels_where_symmetric (centers_ (scenario true false))
              (widths_ (scenario true false)) scenario_inputs
              eq_refl eq_refl eq_refl) as (ka & ks & Hka & Hks & H).
  exists ka, ks. split; [exact Hka |]. split; [exact Hks |].
  apply H; [simpl; lia | simpl; lia | left; reflexivity].
Defined.

End InvariantExtras.
